(** * The job list of the IK library: src/ik/src/joblist.c

    A shallow embedding of the effector scan, the chain marker, the subtree
    partitioner and the job list rebuild, followed by the properties of the
    specification that concern them. *)

From Stdlib Require Import ZArith Lia.
From stdpp Require Import base option list gmap.

Set Warnings "-register-all".
Local Open Scope Z_scope.

(** ** Data model *)

(** C [int]. *)
Definition int := Z.

(** The cast [(int)x] of an integer [x]: wrap-around to 32 bits, signed. *)
Definition int_cast (x : Z) : int := (x + 2 ^ 31) mod 2 ^ 32 - 2 ^ 31.

(** Modelled from the spec: [struct ik_effector] (ik/effector.h is not among
    the sources): "carries a chain length limit (0 meaning unlimited)".  Only
    [chain_length] is read here. *)
Record ik_effector := Effector { chain_length : Z }.

(** Modelled from the spec: [struct ik_algorithm], "opaque handle, identity
    comparison only". *)
Definition ik_algorithm := Z.

(** Modelled from the spec: [struct ik_node] (ik/node.h is not among the
    sources): "a stable unique identifier", "an optional effector, an optional
    algorithm", "an ordered set of children" ([children], in the order
    [NODE_FOR_EACH] enumerates them).  The parent is kept with the pointer,
    below. *)
Inductive ik_node : Type :=
  Node { guid : Z;
         effector : option ik_effector;
         algorithm : option ik_algorithm;
         children : list ik_node }.

(** A [const struct ik_node*] into a tree: the node pointed to, and the nodes
    reached by following [->parent], nearest first ("a parent (nullable, null
    only at the tree root)").  The parent of a child is the node it was
    enumerated from: the loops over children extend [ancestors] by the node
    they run on. *)
Record node_ptr := Ptr { self : ik_node; ancestors : list ik_node }.

(** [node->parent]; [None] is [NULL]. *)
Definition parent (node : node_ptr) : option node_ptr :=
  match ancestors node with
  | [] => None
  | p :: up => Some (Ptr p up)
  end.

(** Modelled from the spec: [ik_node_child_count(node)] (ik/node.h), the
    number of children. *)
Definition ik_node_child_count (node : node_ptr) : Z :=
  Z.of_nat (length (children (self node))).

Inductive ik_marking := MARK_SECTION | MARK_BEGIN | MARK_END | MARK_BEGIN_AND_END.

Global Instance ik_marking_eq_dec : EqDecision ik_marking.
Proof. solve_decision. Defined.

(** Modelled from the spec: [struct ik_subtree] (ik/subtree.h is not among
    the sources), "a root node reference plus an ordered sequence of leaf node
    references". *)
Record ik_subtree := Subtree { root : node_ptr; leaves : list node_ptr }.

(** Modelled from the spec: [struct ik_solver] (ik/solver.h is not among the
    sources), "constructed from (Subtree, Algorithm); opaque to the core
    beyond creation/destruction". *)
Record ik_solver := Solver { solver_subtree : ik_subtree;
                             solver_algorithm : ik_algorithm }.

(** Modelled from the spec: [struct ik_joblist] (ik/joblist.h is not among
    the sources), which "owns an ordered sequence of Solver Jobs": the vector
    [solvers]. *)
Record ik_joblist := Joblist { solvers : list ik_solver }.

(** The map from node guid to mark ([struct btree_t] of the cstructures
    library). *)
Abbreviation btree_t := (gmap Z ik_marking).

(** ** Effects

    The state a call works on: the job list it was handed, and the answers
    the allocator will give to the requests still to come ([true]: memory is
    granted; when the list is used up every request is granted). *)
Record world := World { joblist : ik_joblist; allocator : list bool }.

Inductive fault := AssertionFailed | NullDereference.

(** A call returns a value in a new state, stops the process, or is still
    running when the fuel of its loop is spent. *)
Inductive outcome (A : Type) : Type :=
| Ret (a : A) (w : world)
| Fault (f : fault)
| OutOfFuel.
Arguments Ret {A} a w.
Arguments Fault {A} f.
Arguments OutOfFuel {A}.

Definition M (A : Type) : Type := world -> outcome A.

Definition ret {A} (a : A) : M A := fun w => Ret a w.

Definition bind {A B} (c : M A) (k : A -> M B) : M B :=
  fun w => match c w with
           | Ret a w' => k a w'
           | Fault f => Fault f
           | OutOfFuel => OutOfFuel
           end.

Definition raise {A} (f : fault) : M A := fun _ => Fault f.
Definition out_of_fuel {A} : M A := fun _ => OutOfFuel.

Declare Scope joblist_scope.
Delimit Scope joblist_scope with jl.
Notation "'let*' x := c 'in' k" := (bind c (fun x => k))
  (at level 10, x name, c at level 100, k at level 200, only parsing)
  : joblist_scope.
Notation "'let*' ' p := c 'in' k" := (bind c (fun x => let 'p := x in k))
  (at level 10, p pattern, c at level 100, k at level 200, only parsing)
  : joblist_scope.
Local Open Scope joblist_scope.

(** One request to the allocator. *)
Definition try_alloc : M bool :=
  fun w => match allocator w with
           | [] => Ret true w
           | b :: rest => Ret b (World (joblist w) rest)
           end.

Definition get_joblist : M ik_joblist := fun w => Ret (joblist w) w.
Definition set_joblist (j : ik_joblist) : M unit :=
  fun w => Ret tt (World j (allocator w)).

(** [assert(cond)]. *)
Definition assert (cond : bool) : M unit :=
  if cond then ret tt else raise AssertionFailed.

(** *** cstructures: vectors and the btree *)

(** [vector_init]: [true] is [VECTOR_OK]. *)
Definition vector_init : M bool := try_alloc.

(** [vector_push(v, &x)]: the grown vector, or [None] when growing fails. *)
Definition vector_push {A} (v : list A) (x : A) : M (option (list A)) :=
  let* ok := try_alloc in
  ret (if ok then Some (v ++ [x]) else None).

(** [btree_init]: [true] is [BTREE_OK]. *)
Definition btree_init : M bool := try_alloc.

Inductive btree_status := BTREE_EXISTS | BTREE_NOT_FOUND | BTREE_OOM.

(** [btree_insert_or_get(marked, key, &value, &existing)]: an existing entry
    is left as it is; a new one needs memory. *)
Definition btree_insert_or_get (marked : btree_t) (key : Z) (value : ik_marking)
  : M (btree_status * btree_t) :=
  match marked !! key with
  | Some _ => ret (BTREE_EXISTS, marked)
  | None =>
      let* ok := try_alloc in
      ret (if ok then (BTREE_NOT_FOUND, <[key := value]> marked)
           else (BTREE_OOM, marked))
  end.

(** [btree_find]. *)
Definition btree_find (marked : btree_t) (key : Z) : option ik_marking :=
  marked !! key.

(** Modelled from the spec: the macro [NODE_FOR_EACH ... NODE_END_EACH]
    (ik/node.h), the "ordered child enumeration".  The three loops of this
    file have the shape [if (body(child) != 0) <leave>]: they leave at the
    first child whose body does not return 0.  The result is [true] when every
    child was done. *)
Section node_for_each.
Context {S : Type} (body : ik_node -> S -> M (int * S)).

Fixpoint NODE_FOR_EACH (cs : list ik_node) (s : S) : M (bool * S) :=
  match cs with
  | [] => ret (true, s)
  | child :: rest =>
      let* '(rc, s') := body child s in
      if rc =? 0 then NODE_FOR_EACH rest s' else ret (false, s')
  end.

End node_for_each.

(** ** find_all_effector_nodes *)

Fixpoint find_all_effector_nodes (result : list node_ptr)
    (up : list ik_node) (node : ik_node) {struct node} : M (int * list node_ptr) :=
  match node with
  | Node _ eff _ cs =>
      let* '(done, result) :=
        NODE_FOR_EACH (fun child r => find_all_effector_nodes r (node :: up) child)
                      cs result in
      if negb done then ret (-1, result) else
      match eff with
      | Some _ =>
          let* r := vector_push result (Ptr node up) in
          match r with
          | Some result' => ret (0, result')
          | None => ret (-1, result)
          end
      | None => ret (0, result)
      end
  end.

(** ** mark_nodes *)

(** The macros of the loop body. *)
Definition is_end_of_chain (chain_length_counter : int) (node : node_ptr) : bool :=
  (chain_length_counter =? 0) || bool_decide (parent node = None).
Definition has_children (node : node_ptr) : bool :=
  ik_node_child_count node >? 0.
Definition has_algorithm (node : node_ptr) : bool :=
  bool_decide (algorithm (self node) <> None).
Definition has_effector (node : node_ptr) : bool :=
  bool_decide (effector (self node) <> None).

(** The table [lookup_mark]; [None] stands for its entries [-1]. *)
Definition lookup_mark : list (option ik_marking) :=
  [ None;
    None;
    Some MARK_SECTION;
    Some MARK_BEGIN;
    Some MARK_END;
    Some MARK_END;
    Some MARK_BEGIN_AND_END;
    Some MARK_BEGIN_AND_END;
    None;
    None;
    Some MARK_SECTION;
    Some MARK_BEGIN;
    Some MARK_BEGIN;
    Some MARK_BEGIN_AND_END;
    Some MARK_BEGIN_AND_END;
    Some MARK_BEGIN_AND_END ].

Definition mark_idx (chain_length_counter : int) (node : node_ptr) : Z :=
  Z.lor (Z.lor (Z.lor
    (Z.shiftl (Z.b2z (is_end_of_chain chain_length_counter node)) 0)
    (Z.shiftl (Z.b2z (has_children node)) 1))
    (Z.shiftl (Z.b2z (has_effector node)) 2))
    (Z.shiftl (Z.b2z (has_algorithm node)) 3).

(** [new_mark = lookup_mark[mark_idx]]. *)
Definition new_mark_of (chain_length_counter : int) (node : node_ptr)
  : option ik_marking :=
  nth (Z.to_nat (mark_idx chain_length_counter node)) lookup_mark None.

(** The first [switch]: [true] for the cases that log IK_FATAL and return -1.
    (The IK_WARN of cases 10, 11 and 12 only logs.) *)
Definition is_fatal (idx : Z) : bool :=
  (idx =? 0) || (idx =? 1) || (idx =? 8) || (idx =? 9).

(** One pass through the body of [while (1)], up to the test that ends the
    loop: [inl rc] when the body leaves [mark_nodes] with [return rc], [inr]
    with the marks when it runs through. *)
Definition mark_visit (chain_length_counter : int) (node : node_ptr)
    (marked : btree_t) : M (int + btree_t) :=
  let idx := mark_idx chain_length_counter node in
  if is_fatal idx then ret (inl (-1)) else
  match new_mark_of chain_length_counter node with
  | None => ret (inl (-1))   (* the entries -1 are the fatal cases *)
  | Some new_mark =>
      let* '(status, marked) :=
        btree_insert_or_get marked (guid (self node)) new_mark in
      match status with
      | BTREE_EXISTS =>
          if decide (new_mark = MARK_SECTION)
          then ret (inr (<[guid (self node) := MARK_SECTION]> marked))
          else ret (inr marked)
      | BTREE_NOT_FOUND => ret (inr marked)
      | BTREE_OOM => ret (inl (-1))
      end
  end.

(** [while (1) { ... if (chain_length_counter == 0 || node->parent == NULL)
    break; }].  The body assigns neither [node] nor [chain_length_counter],
    so the next pass runs on the same two values.  [inr] is the [break]. *)
Fixpoint mark_chain (fuel : nat) (chain_length_counter : int) (node : node_ptr)
    (marked : btree_t) : M (int + btree_t) :=
  match fuel with
  | O => out_of_fuel
  | S fuel' =>
      let* r := mark_visit chain_length_counter node marked in
      match r with
      | inl rc => ret (inl rc)
      | inr marked' =>
          if (chain_length_counter =? 0) || bool_decide (parent node = None)
          then ret (inr marked')
          else mark_chain fuel' chain_length_counter node marked'
      end
  end.

(** [VECTOR_FOR_EACH(effector_nodes, ...)] around the loop; [fuel] bounds the
    passes of each [while (1)]. *)
Fixpoint mark_nodes (fuel : nat) (marked : btree_t) (effector_nodes : list node_ptr)
  : M (int * btree_t) :=
  match effector_nodes with
  | [] => ret (0, marked)
  | node :: rest =>
      match effector (self node) with
      | None => raise NullDereference   (* effector->chain_length *)
      | Some eff =>
          let chain_length_counter :=
            if negb (int_cast (chain_length eff) =? 0)
            then int_cast (chain_length eff) else -1 in
          let* r := mark_chain fuel chain_length_counter node marked in
          match r with
          | inl rc => ret (rc, marked)
          | inr marked' => mark_nodes fuel marked' rest
          end
      end
  end.

(** ** new_solver *)

(** [for (node = subtree->root; node->parent != NULL; node = node->parent)
      if (node->algorithm != NULL) { algorithm = node->algorithm; break; }],
    on the node and what [->parent] reaches from it. *)
Fixpoint find_algorithm (node : ik_node) (up : list ik_node) : option ik_algorithm :=
  match up with
  | [] => None
  | p :: up' =>
      match algorithm node with
      | Some a => Some a
      | None => find_algorithm p up'
      end
  end.

(** Modelled from the spec: [ik_solver_create(subtree, algorithm)]
    (ik/solver.h), the solver factory "create(subtree, algorithm) -> SolverJob
    | failure"; [None] is [NULL]. *)
Definition ik_solver_create (subtree : ik_subtree) (a : ik_algorithm)
  : M (option ik_solver) :=
  let* ok := try_alloc in
  ret (if ok then Some (Solver subtree a) else None).

Definition new_solver (subtree : ik_subtree) : M (option ik_solver) :=
  match find_algorithm (self (root subtree)) (ancestors (root subtree)) with
  | None => ret None     (* IK_ERROR: no algorithm assigned to subtree *)
  | Some a => ik_solver_create subtree a
  end.

(** ** recurse_with_new_subtree and alloc_solvers *)

(** Modelled from the spec: [ik_subtree_init(&subtree)] (ik/subtree.h), which
    sets up the empty leaf sequence and can fail for want of memory; [true]
    is its 0. *)
Definition ik_subtree_init : M bool := try_alloc.

(** The body of [recurse_with_new_subtree], given the loop over the children
    of [node] ([for_children], which is handed [&subtree]). *)
Definition recurse_with_new_subtree_body
    (for_children : option ik_subtree -> M (bool * option ik_subtree))
    (node : node_ptr) : M int :=
  let* ok := ik_subtree_init in
  if negb ok then ret (-1) else
  let subtree := Subtree node [] in
  let* '(done, cur) := for_children (Some subtree) in
  if negb done then ret (-1) else
  match cur with
  | None => raise NullDereference   (* [&subtree] is not NULL *)
  | Some subtree =>
      let* solver := new_solver subtree in
      match solver with
      | None => ret (-1)
      | Some solver =>
          let* j := get_joblist in
          let* v := vector_push (solvers j) solver in
          match v with
          | None => ret (-1)      (* ik_solver_free(solver) *)
          | Some v' =>
              let* _ := set_joblist (Joblist v') in
              ret 0
          end
      end
  end.

(** [current_subtree] is [None] for [NULL]; the subtree it points to comes
    back with the leaves pushed to it. *)
Fixpoint alloc_solvers (marked_nodes : btree_t) (up : list ik_node)
    (node : ik_node) (current_subtree : option ik_subtree) {struct node}
  : M (int * option ik_subtree) :=
  match node with
  | Node g _ _ cs =>
      let for_children :=
        NODE_FOR_EACH (fun child cur => alloc_solvers marked_nodes (node :: up) child cur) cs in
      let push_leaf : M (option (option ik_subtree)) :=
        let* _ := assert (bool_decide (current_subtree <> None)) in
        match current_subtree with
        | None => raise NullDereference
        | Some st =>
            let* v := vector_push (leaves st) (Ptr node up) in
            ret (match v with
                 | Some v' => Some (Some (Subtree (root st) v'))
                 | None => None
                 end)
        end in
      let section (cur : option ik_subtree) : M (int * option ik_subtree) :=
        let* '(done, cur') := for_children cur in
        ret (if done then 0 else -1, cur') in
      let begin (cur : option ik_subtree) : M (int * option ik_subtree) :=
        let* rc := recurse_with_new_subtree_body for_children (Ptr node up) in
        ret (rc, cur) in
      match btree_find marked_nodes g with
      | None => ret (0, current_subtree)
      | Some MARK_END =>
          let* r := push_leaf in
          match r with
          | None => ret (-1, current_subtree)
          | Some cur => section cur
          end
      | Some MARK_SECTION => section current_subtree
      | Some MARK_BEGIN_AND_END =>
          let* r := push_leaf in
          match r with
          | None => ret (-1, current_subtree)
          | Some cur => begin cur
          end
      | Some MARK_BEGIN => begin current_subtree
      end
  end.

Definition recurse_with_new_subtree (marked_nodes : btree_t) (node : node_ptr)
  : M int :=
  recurse_with_new_subtree_body
    (NODE_FOR_EACH (fun child cur =>
                      alloc_solvers marked_nodes (self node :: ancestors node) child cur)
                   (children (self node)))
    node.

(** ** ik_joblist_update *)

(** Modelled from the spec: [ikret], the "status" of the rebuild (its header
    is not among the sources).  [IK_OK] is the value the [int] helpers return
    on success: their result is compared with [IK_OK] and handed on as the
    status.  The two error codes the function names are parameters. *)
Definition ikret := Z.
Definition IK_OK : ikret := 0.

Section update.
Variables IK_ERR_OUT_OF_MEMORY IK_ERR_NO_EFFECTORS_FOUND : ikret.

(** From [/* clear old solvers */] to the end of [ik_joblist_update]: what
    runs once [mark_nodes] has returned [IK_OK]. *)
Definition replace_solvers (tree : node_ptr) (marked_nodes : btree_t) : M ikret :=
  (* ik_solver_free on each solver, then vector_clear_compact *)
  let* _ := set_joblist (Joblist []) in
  let* '(status, _) :=
    alloc_solvers marked_nodes (ancestors tree) (self tree) None in
  if negb (status =? IK_OK) then ret status else
  ret IK_OK.

Definition ik_joblist_update (fuel : nat) (tree : node_ptr) : M ikret :=
  let* ok := vector_init in
  if negb ok then ret IK_ERR_OUT_OF_MEMORY else
  let* '(status, effector_nodes) :=
    find_all_effector_nodes [] (ancestors tree) (self tree) in
  if negb (status =? IK_OK) then ret status else
  if Z.of_nat (length effector_nodes) =? 0 then ret IK_ERR_NO_EFFECTORS_FOUND else
  let* ok := btree_init in
  if negb ok then ret IK_ERR_OUT_OF_MEMORY else
  let* '(status, marked_nodes) := mark_nodes fuel ∅ effector_nodes in
  if negb (status =? IK_OK) then ret status else
  replace_solvers tree marked_nodes.

End update.

(** ** ik_joblist_create *)

(** Modelled from the spec: [ik_refcounted_alloc] (its header is not among
    the sources), the allocation of the job list object; [true] stands for a
    pointer that is not NULL. *)
Definition ik_refcounted_alloc : M bool := try_alloc.

Section create.
Variables IK_ERR_OUT_OF_MEMORY IK_ERR_NO_EFFECTORS_FOUND : ikret.

(** The job list of the state stands for the object being created while the
    function runs; the caller's own is put back on return.  [None] is NULL:
    after [alloc_joblist_failed], after [ik_refcounted_free], and after
    [IK_DECREF], which runs [deinit_joblist] (every solver freed, the vector
    released) on the object that is given up. *)
Definition ik_joblist_create (fuel : nat) (tree : node_ptr) : M (option ik_joblist) :=
  fun w =>
    match
      (let* ok := ik_refcounted_alloc in
       if negb ok then ret None else
       let* ok := vector_init in
       if negb ok then ret None else
       let* _ := set_joblist (Joblist []) in
       let* status :=
         ik_joblist_update IK_ERR_OUT_OF_MEMORY IK_ERR_NO_EFFECTORS_FOUND fuel tree in
       if negb (status =? IK_OK) then ret None else
       let* j := get_joblist in
       ret (Some j)) w
    with
    | Ret r w' => Ret r (World (joblist w) (allocator w'))
    | Fault f => Fault f
    | OutOfFuel => OutOfFuel
    end.

End create.

(** ** Trees and tables the statements speak of *)

(** A linear chain: the nodes of [inner] from the top, each given by its guid
    and its algorithm and each the only child of the one before, then
    [leaf]. *)
Fixpoint linear_chain (inner : list (Z * option ik_algorithm)) (leaf : ik_node)
  : ik_node :=
  match inner with
  | [] => leaf
  | (g, a) :: rest => Node g None a [linear_chain rest leaf]
  end.

(** Every node of a tree, the tree's own first. *)
Fixpoint nodes (t : ik_node) : list ik_node :=
  match t with
  | Node _ _ _ cs => t :: flat_map nodes cs
  end.

(** The table of the specification's chain marker, row by row in the order it
    is written there (columns E, C, F, A); [None] is its FATAL. *)
Definition spec_mark_table (E C F A : bool) : option ik_marking :=
  match E, C, F, A with
  | false, false, false, false => None
  | true,  false, false, false => None
  | false, true,  false, false => Some MARK_SECTION
  | true,  true,  false, false => Some MARK_BEGIN
  | false, false, true,  false => Some MARK_END
  | true,  false, true,  false => Some MARK_END
  | false, true,  true,  false => Some MARK_BEGIN_AND_END
  | true,  true,  true,  false => Some MARK_BEGIN_AND_END
  | false, false, false, true  => None
  | true,  false, false, true  => None
  | false, true,  false, true  => Some MARK_SECTION
  | true,  true,  false, true  => Some MARK_BEGIN
  | false, false, true,  true  => Some MARK_BEGIN
  | true,  false, true,  true  => Some MARK_BEGIN_AND_END
  | false, true,  true,  true  => Some MARK_BEGIN_AND_END
  | true,  true,  true,  true  => Some MARK_BEGIN_AND_END
  end.

(** The guids of a tree. *)
Fixpoint guids (t : ik_node) : list Z :=
  match t with
  | Node g _ _ cs => g :: flat_map guids cs
  end.

(** A pointer read as the path it stands for: the node, then its parent, and
    so on up to the node without parent. *)
Definition path (p : node_ptr) : list ik_node := self p :: ancestors p.

(** [p] is [node] (whose ancestors are [up]) or lies below it. *)
Definition under (up : list ik_node) (node : ik_node) (p : node_ptr) : Prop :=
  exists l, path p = l ++ node :: up.

(** [p] lies strictly below [q]: [q] is reached from [p] by one or more
    steps of [->parent]. *)
Definition proper_descendant (p q : node_ptr) : Prop :=
  exists l, l <> [] /\ path p = l ++ path q.

(** The jobs of subtrees nested in another come before it. *)
Definition nested_first (jobs : list ik_solver) : Prop :=
  forall (i j : nat) (A B : ik_solver),
    jobs !! i = Some A -> jobs !! j = Some B ->
    proper_descendant (root (solver_subtree A)) (root (solver_subtree B)) ->
    (i < j)%nat.

(** The first algorithm attached to a node of a list. *)
Fixpoint first_algorithm (l : list ik_node) : option ik_algorithm :=
  match l with
  | [] => None
  | n :: rest =>
      match algorithm n with
      | Some a => Some a
      | None => first_algorithm rest
      end
  end.


(** Two nodes: a root with an algorithm and a leaf with an effector. *)
Definition two_nodes_leaf : ik_node := Node 2 (Some (Effector 1)) None [].
Definition two_nodes : ik_node := Node 1 None (Some 7) [two_nodes_leaf].

(** A tree without effectors. *)
Definition no_effectors (t : ik_node) : Prop :=
  Forall (fun n => effector n = None) (nodes t).

(** The pointer to the leaf of a linear chain that hangs under [up]. *)
Fixpoint chain_leaf_ptr (inner : list (Z * option ik_algorithm)) (leaf : ik_node)
    (up : list ik_node) : node_ptr :=
  match inner with
  | [] => Ptr leaf up
  | _ :: rest => chain_leaf_ptr rest leaf (linear_chain inner leaf :: up)
  end.

(** *** What the partitioner keeps and leaves behind *)

(** [current_subtree] points to the same subtree before and after a call. *)
Definition same_root (cur cur' : option ik_subtree) : Prop :=
  match cur, cur' with
  | Some a, Some b => root a = root b
  | None, None => True
  | _, _ => False
  end.

(** What a call leaves behind: the jobs [new] appended to the job list, each
    for a subtree whose root satisfies [place], nested ones first when the
    nodes involved are distinct ([D]). *)
Definition appended (D : Prop) (place : node_ptr -> Prop) (w w' : world) : Prop :=
  exists new,
    solvers (joblist w') = solvers (joblist w) ++ new
    /\ Forall (fun s => place (root (solver_subtree s))) new
    /\ (D -> nested_first new).

Definition alloc_post (up : list ik_node) (node : ik_node)
    (cur : option ik_subtree) (w : world)
    (rc : int) (cur' : option ik_subtree) (w' : world) : Prop :=
  (rc = 0 \/ rc = -1) /\ same_root cur cur'
  /\ appended (NoDup (guids node)) (under up node) w w'.

(** A lineage of four nodes, and marks that nest the subtree rooted at node 3
    in the one rooted at node 2. *)
Definition lineage4 : ik_node := Node 4 (Some (Effector 1)) None [].
Definition lineage3 : ik_node := Node 3 (Some (Effector 1)) (Some 9) [lineage4].
Definition lineage2 : ik_node := Node 2 None (Some 8) [lineage3].
Definition lineage1 : ik_node := Node 1 None (Some 7) [lineage2].
Definition lineage_marks : btree_t :=
  {[ 1 := MARK_SECTION; 2 := MARK_BEGIN; 3 := MARK_BEGIN_AND_END; 4 := MARK_END ]}.

(** A root with an algorithm and two children: node 2 has an algorithm and a
    leaf whose effector has chain length 1; node 5 is a leaf whose effector
    has an unbounded chain.  The marks are those of the walks as documented:
    END on the two leaves, BEGIN where each walk ends. *)
Definition fork4 : ik_node := Node 4 (Some (Effector 1)) None [].
Definition fork2 : ik_node := Node 2 None (Some 8) [fork4].
Definition fork5 : ik_node := Node 5 (Some (Effector 0)) None [].
Definition fork1 : ik_node := Node 1 None (Some 7) [fork2; fork5].
Definition fork_marks : btree_t :=
  {[ 4 := MARK_END; 2 := MARK_BEGIN; 5 := MARK_END; 1 := MARK_BEGIN ]}.

(** A job left by an earlier rebuild. *)
Definition old_job : ik_solver := Solver (Subtree (Ptr fork5 [fork1]) []) 7.

(** *** The scan and the marker *)

(** The pointers to the nodes of a tree that carry an effector, those of the
    children (in their order) before the node itself. *)
Fixpoint effector_ptrs (up : list ik_node) (t : ik_node) : list node_ptr :=
  match t with
  | Node _ eff _ cs =>
      flat_map (effector_ptrs (t :: up)) cs
      ++ match eff with Some _ => [Ptr t up] | None => [] end
  end.

(** The counter a walk starts with. *)
Definition initial_counter (eff : ik_effector) : int :=
  if negb (int_cast (chain_length eff) =? 0)
  then int_cast (chain_length eff) else -1.

(** What a scan leaves in [result], its status and the state. *)
Definition scan_post (expected : list node_ptr) (result : list node_ptr)
    (w : world) (ok : bool) (result' : list node_ptr) (w' : world) : Prop :=
  joblist w' = joblist w
  /\ allocator w' `suffix_of` allocator w
  /\ (exists found, result' = result ++ found
                    /\ found `prefix_of` expected
                    /\ (ok = true -> found = expected))
  /\ (ok = false -> false ∈ allocator w).

(** How the marks grow over the walks from the nodes of [effs]: no mark is
    dropped or changed, and a new one is the table's mark of one of these
    nodes. *)
Definition marks_grow (effs : list node_ptr) (marked marked' : btree_t) : Prop :=
  marked ⊆ marked'
  /\ forall k m,
      marked !! k = None -> marked' !! k = Some m ->
      exists p eff,
        p ∈ effs /\ guid (self p) = k /\ effector (self p) = Some eff
        /\ new_mark_of (initial_counter eff) p = Some m.

(** *** The shape of the jobs *)

(** A node marked as the end of a chain. *)
Definition marked_end (marked : btree_t) (p : node_ptr) : Prop :=
  marked !! guid (self p) = Some MARK_END
  \/ marked !! guid (self p) = Some MARK_BEGIN_AND_END.

(** A job as the partitioner builds it: the root of its subtree is marked
    BEGIN or BEGIN_AND_END, its leaves lie strictly below the root and are
    marked END or BEGIN_AND_END, and its algorithm is the first one from the
    root upward among the nodes that have a parent. *)
Definition job_shape (marked : btree_t) (s : ik_solver) : Prop :=
  (marked !! guid (self (root (solver_subtree s))) = Some MARK_BEGIN
   \/ marked !! guid (self (root (solver_subtree s))) = Some MARK_BEGIN_AND_END)
  /\ Forall (fun l => proper_descendant l (root (solver_subtree s))
                      /\ marked_end marked l)
            (leaves (solver_subtree s))
  /\ first_algorithm (removelast (path (root (solver_subtree s))))
     = Some (solver_algorithm s).

(** What a call does to the subtree [current_subtree] points to: the root
    stays, leaves that satisfy [place] and are marked as ends are pushed. *)
Definition leaves_pushed (marked : btree_t) (place : node_ptr -> Prop)
    (cur cur' : option ik_subtree) : Prop :=
  match cur, cur' with
  | Some st, Some st' =>
      root st' = root st
      /\ exists added,
          leaves st' = leaves st ++ added
          /\ Forall (fun l => place l /\ marked_end marked l) added
  | None, None => True
  | _, _ => False
  end.

(** The jobs a call appends all have the shape above. *)
Definition jobs_pushed (marked : btree_t) (w w' : world) : Prop :=
  exists new,
    solvers (joblist w') = solvers (joblist w) ++ new
    /\ Forall (job_shape marked) new.

(** The state in which every request for memory is granted. *)
Definition plenty (j : ik_joblist) : world := World j [].

(** * Properties *)

(** ** The monad *)

Lemma bind_ret {A B} (c : M A) (k : A -> M B) w a w' :
  c w = Ret a w' -> bind c k w = k a w'.
Proof. unfold bind. now intros ->. Qed.

Lemma bind_inv {A B} (c : M A) (k : A -> M B) w b w' :
  bind c k w = Ret b w' -> exists a w1, c w = Ret a w1 /\ k a w1 = Ret b w'.
Proof.
  unfold bind. destruct (c w) as [a w1| |]; try discriminate.
  intros H. now exists a, w1.
Qed.

Lemma try_alloc_plenty j : try_alloc (plenty j) = Ret true (plenty j).
Proof. reflexivity. Qed.

Lemma try_alloc_joblist w b w' :
  try_alloc w = Ret b w' -> joblist w' = joblist w.
Proof.
  unfold try_alloc. destruct (allocator w); intros H; inversion H; reflexivity.
Qed.

(** ** The chain marker *)

Lemma mark_idx_cases c node :
  mark_idx c node =
    Z.b2z (is_end_of_chain c node) + 2 * Z.b2z (has_children node)
    + 4 * Z.b2z (has_effector node) + 8 * Z.b2z (has_algorithm node).
Proof.
  unfold mark_idx.
  destruct (is_end_of_chain c node), (has_children node),
    (has_effector node), (has_algorithm node); reflexivity.
Qed.

Lemma new_mark_of_table c node :
  new_mark_of c node =
    spec_mark_table (is_end_of_chain c node) (has_children node)
                    (has_effector node) (has_algorithm node).
Proof.
  unfold new_mark_of. rewrite mark_idx_cases.
  destruct (is_end_of_chain c node), (has_children node),
    (has_effector node), (has_algorithm node); reflexivity.
Qed.

Lemma is_fatal_table c node :
  is_fatal (mark_idx c node) = true <-> new_mark_of c node = None.
Proof.
  unfold new_mark_of. rewrite mark_idx_cases.
  destruct (is_end_of_chain c node), (has_children node),
    (has_effector node), (has_algorithm node); vm_compute; split; congruence.
Qed.

Lemma is_fatal_false c node m :
  new_mark_of c node = Some m -> is_fatal (mark_idx c node) = false.
Proof.
  intros H. destruct (is_fatal (mark_idx c node)) eqn:E; [|reflexivity].
  apply is_fatal_table in E. congruence.
Qed.



Lemma mark_visit_exists c node marked old nm w :
  marked !! guid (self node) = Some old ->
  new_mark_of c node = Some nm ->
  mark_visit c node marked w =
    Ret (inr (if decide (nm = MARK_SECTION)
              then <[guid (self node) := MARK_SECTION]> marked
              else marked)) w.
Proof.
  intros Hold Hnm. unfold mark_visit, btree_insert_or_get.
  rewrite (is_fatal_false _ _ _ Hnm), Hnm, Hold. cbn.
  now destruct (decide (nm = MARK_SECTION)).
Qed.

Lemma mark_visit_fresh c node marked nm j :
  marked !! guid (self node) = None ->
  new_mark_of c node = Some nm ->
  mark_visit c node marked (plenty j) =
    Ret (inr (<[guid (self node) := nm]> marked)) (plenty j).
Proof.
  intros Hnone Hnm. unfold mark_visit, btree_insert_or_get.
  now rewrite (is_fatal_false _ _ _ Hnm), Hnm, Hnone.
Qed.







(** C7.  When the node visited already has a mark, the visit stores SECTION
    if the mark it computed is SECTION and keeps the stored mark otherwise;
    the marks of the other nodes stay as they are. *)
Theorem mark_visit_merge (chain_length_counter : int) (node : node_ptr)
    (marked : btree_t) (old new_mark : ik_marking) (w : world) :
  marked !! guid (self node) = Some old ->
  new_mark_of chain_length_counter node = Some new_mark ->
  exists marked' : btree_t,
    mark_visit chain_length_counter node marked w = Ret (inr marked') w
    /\ (new_mark = MARK_SECTION ->
        marked' !! guid (self node) = Some MARK_SECTION)
    /\ (new_mark <> MARK_SECTION -> marked' !! guid (self node) = Some old)
    /\ (forall k, k <> guid (self node) -> marked' !! k = marked !! k).
Proof.
  intros Hold Hnm. rewrite (mark_visit_exists _ _ _ _ _ w Hold Hnm).
  eexists. split; [reflexivity|].
  destruct (decide (new_mark = MARK_SECTION)) as [->|Hne].
  - split; [intros _; apply lookup_insert_eq|].
    split; [congruence|]. intros k Hk. now apply lookup_insert_ne.
  - split; [congruence|]. split; [now intros _|]. reflexivity.
Qed.

Lemma mark_visit_merge_witness :
  exists marked' : btree_t,
    mark_visit 0 (Ptr (Node 5 None None [Node 6 (Some (Effector 0)) None []]) [])
               {[ 5 := MARK_END ]} (plenty (Joblist []))
      = Ret (inr marked') (plenty (Joblist []))
    /\ (MARK_BEGIN = MARK_SECTION -> marked' !! 5 = Some MARK_SECTION)
    /\ (MARK_BEGIN <> MARK_SECTION -> marked' !! 5 = Some MARK_END)
    /\ (forall k, k <> 5 -> marked' !! k = ({[ 5 := MARK_END ]} : btree_t) !! k).
Proof.
  apply (mark_visit_merge 0
           (Ptr (Node 5 None None [Node 6 (Some (Effector 0)) None []]) [])
           {[ 5 := MARK_END ]} MARK_END MARK_BEGIN); reflexivity.
Defined.

(** A node that carries an effector is never on a FATAL row. *)
Lemma new_mark_of_effector c node :
  has_effector node = true -> exists nm, new_mark_of c node = Some nm.
Proof.
  intros H. rewrite new_mark_of_table, H.
  destruct (is_end_of_chain c node), (has_children node), (has_algorithm node);
    cbn; eauto.
Qed.

Lemma mark_visit_plenty c node marked j :
  has_effector node = true ->
  exists marked', mark_visit c node marked (plenty j) = Ret (inr marked') (plenty j).
Proof.
  intros H. destruct (new_mark_of_effector c node H) as [nm Hnm].
  destruct (marked !! guid (self node)) as [old|] eqn:E.
  - rewrite (mark_visit_exists _ _ _ _ _ _ E Hnm). now eexists.
  - rewrite (mark_visit_fresh _ _ _ _ _ E Hnm). now eexists.
Qed.

Lemma mark_chain_never_breaks fuel c node marked j :
  c <> 0 -> ancestors node <> [] -> has_effector node = true ->
  mark_chain fuel c node marked (plenty j) = OutOfFuel.
Proof.
  intros Hc Hup Heff. revert marked.
  induction fuel as [|fuel IH]; intros marked; [reflexivity|].
  destruct (mark_visit_plenty c node marked j Heff) as [marked' Hv].
  cbn [mark_chain]. rewrite (bind_ret _ _ _ _ _ Hv).
  assert ((c =? 0) = false) as -> by lia.
  assert (bool_decide (parent node = None) = false) as ->.
  { apply bool_decide_eq_false. unfold parent.
    destruct (ancestors node); congruence. }
  apply IH.
Qed.

Lemma chain_length_counter_nonzero (eff : ik_effector) :
  (if negb (int_cast (chain_length eff) =? 0)
   then int_cast (chain_length eff) else -1) <> 0.
Proof. destruct (int_cast (chain_length eff) =? 0) eqn:E; cbn; lia. Qed.

(** On an effector node that has a parent, with every request for memory
    granted, the loop is still running after any number of passes. *)
Lemma mark_nodes_out_of_fuel fuel marked node rest eff j :
  effector (self node) = Some eff ->
  parent node <> None ->
  mark_nodes fuel marked (node :: rest) (plenty j) = OutOfFuel.
Proof.
  intros Heff Hpar. cbn [mark_nodes]. rewrite Heff. unfold bind.
  rewrite mark_chain_never_breaks; [reflexivity| | |].
  - apply chain_length_counter_nonzero.
  - unfold parent in Hpar. destruct (ancestors node); congruence.
  - unfold has_effector. apply bool_decide_eq_true. congruence.
Qed.

(** ** The effector scan *)

Lemma ik_node_rect_nested (P : ik_node -> Prop) :
  (forall g e a cs, Forall P cs -> P (Node g e a cs)) -> forall t, P t.
Proof.
  intros step. fix IH 1. intros [g e a cs]. apply step.
  induction cs as [|c cs IHcs]; constructor; [apply IH|exact IHcs].
Qed.

Lemma find_all_effector_nodes_eq result up g e a cs :
  find_all_effector_nodes result up (Node g e a cs) =
    (let* '(done, result) :=
       NODE_FOR_EACH (fun child r =>
                        find_all_effector_nodes r (Node g e a cs :: up) child)
                     cs result in
     if negb done then ret (-1, result) else
     match e with
     | Some _ =>
         let* r := vector_push result (Ptr (Node g e a cs) up) in
         match r with
         | Some result' => ret (0, result')
         | None => ret (-1, result)
         end
     | None => ret (0, result)
     end).
Proof. reflexivity. Qed.

(** A loop over children whose bodies all return 0 and leave the state and
    the loop's variable as they are does the same. *)
Lemma NODE_FOR_EACH_skip {S} (body : ik_node -> S -> M (int * S)) cs s w :
  Forall (fun c => body c s w = Ret (0, s) w) cs ->
  NODE_FOR_EACH body cs s w = Ret (true, s) w.
Proof.
  induction 1 as [|c cs Hc _ IH]; [reflexivity|].
  cbn [NODE_FOR_EACH]. now rewrite (bind_ret _ _ _ _ _ Hc).
Qed.

Lemma no_effectors_inv g e a cs :
  no_effectors (Node g e a cs) -> e = None /\ Forall no_effectors cs.
Proof.
  unfold no_effectors. cbn [nodes]. intros H.
  apply Forall_cons_1 in H as [He H]. split; [exact He|]. clear He.
  induction cs as [|c cs IH]; constructor.
  - cbn [flat_map] in H. now apply Forall_app in H as [H _].
  - apply IH. cbn [flat_map] in H. now apply Forall_app in H as [_ H].
Qed.

Lemma find_all_effector_nodes_none t :
  no_effectors t ->
  forall result up w, find_all_effector_nodes result up t w = Ret (0, result) w.
Proof.
  induction t as [g e a cs IH] using ik_node_rect_nested.
  intros Hno result up w. apply no_effectors_inv in Hno as [-> Hcs].
  rewrite find_all_effector_nodes_eq.
  rewrite (bind_ret _ _ w (true, result) w); [reflexivity|].
  apply NODE_FOR_EACH_skip.
  rewrite Forall_forall in *. intros c Hc. apply IH; auto.
Qed.

Lemma chain_leaf_ptr_self inner leaf up : self (chain_leaf_ptr inner leaf up) = leaf.
Proof. revert up. induction inner as [|[g a] rest IH]; intros up; [reflexivity|apply IH]. Qed.

Lemma chain_leaf_ptr_parent inner leaf up :
  inner <> [] \/ up <> [] -> parent (chain_leaf_ptr inner leaf up) <> None.
Proof.
  revert up. induction inner as [|[g a] rest IH]; intros up H.
  - destruct H as [H|H]; [congruence|]. cbn. unfold parent. cbn.
    destruct up; congruence.
  - cbn [chain_leaf_ptr]. apply IH. right. discriminate.
Qed.

Lemma find_all_effector_nodes_chain inner g eff a result up j :
  find_all_effector_nodes result up (linear_chain inner (Node g (Some eff) a []))
                          (plenty j)
  = Ret (0, result ++ [chain_leaf_ptr inner (Node g (Some eff) a []) up]) (plenty j).
Proof.
  revert result up. induction inner as [|[g' a'] rest IH]; intros result up.
  - reflexivity.
  - cbn [linear_chain chain_leaf_ptr]. rewrite find_all_effector_nodes_eq.
    cbn [NODE_FOR_EACH]. unfold bind at 1 2. rewrite IH. reflexivity.
Qed.

(** ** The rebuild on trees without effectors, and with one on the root *)

Lemma update_without_effectors_eq oom noeff fuel tree w :
  no_effectors (self tree) ->
  ik_joblist_update oom noeff fuel tree w =
    Ret (if default true (head (allocator w)) then noeff else oom)
        (World (joblist w) (tail (allocator w))).
Proof.
  intros Hno. unfold ik_joblist_update, vector_init, try_alloc, bind at 1.
  destruct w as [j [|[] al]]; cbn [allocator joblist head tail default negb].
  - unfold bind. now rewrite find_all_effector_nodes_none.
  - unfold bind. now rewrite find_all_effector_nodes_none.
  - reflexivity.
Qed.

(** C8.  On a tree without effectors the rebuild returns with the job list
    as it was, and the status is the no-effectors one unless the effector
    vector could not be initialised. *)
Theorem update_no_effectors (IK_ERR_OUT_OF_MEMORY IK_ERR_NO_EFFECTORS_FOUND : ikret)
    (fuel : nat) (tree : node_ptr) (w : world) :
  no_effectors (self tree) ->
  exists status w',
    ik_joblist_update IK_ERR_OUT_OF_MEMORY IK_ERR_NO_EFFECTORS_FOUND fuel tree w
      = Ret status w'
    /\ joblist w' = joblist w
    /\ (head (allocator w) <> Some false -> status = IK_ERR_NO_EFFECTORS_FOUND).
Proof.
  intros Hno. rewrite update_without_effectors_eq by exact Hno.
  eexists _, _. split; [reflexivity|]. split; [reflexivity|].
  destruct (allocator w) as [|[] al]; cbn; congruence.
Qed.

Lemma update_no_effectors_witness :
  exists status w',
    ik_joblist_update (-2) (-3) 10
      (Ptr (Node 1 None (Some 7) [Node 2 None None []]) [])
      (World (Joblist []) [true]) = Ret status w'
    /\ joblist w' = Joblist []
    /\ (head [true] <> Some false -> status = -3).
Proof.
  apply (update_no_effectors (-2) (-3) 10
           (Ptr (Node 1 None (Some 7) [Node 2 None None []]) [])
           (World (Joblist []) [true])).
  repeat constructor.
Defined.

Lemma alloc_solvers_null_leaf marked up node m w :
  marked !! guid node = Some m ->
  m = MARK_END \/ m = MARK_BEGIN_AND_END ->
  alloc_solvers marked up node None w = Fault AssertionFailed.
Proof.
  destruct node as [g e a cs]. cbn [guid]. intros Hm Hend.
  cbn [alloc_solvers]. unfold btree_find. rewrite Hm.
  destruct Hend as [-> | ->]; reflexivity.
Qed.

Lemma mark_chain_break fuel c node marked nm j :
  is_end_of_chain c node = true ->
  new_mark_of c node = Some nm ->
  marked !! guid (self node) = None ->
  mark_chain (S fuel) c node marked (plenty j)
    = Ret (inr (<[guid (self node) := nm]> marked)) (plenty j).
Proof.
  intros Hend Hnm Hnone. cbn [mark_chain].
  rewrite (bind_ret _ _ _ _ _ (mark_visit_fresh c node marked nm j Hnone Hnm)).
  unfold is_end_of_chain in Hend. now rewrite Hend.
Qed.

Lemma new_mark_of_root_effector c node :
  parent node = None -> has_effector node = true ->
  exists m, (m = MARK_END \/ m = MARK_BEGIN_AND_END) /\ new_mark_of c node = Some m.
Proof.
  intros Hpar Heff. rewrite new_mark_of_table, Heff.
  replace (is_end_of_chain c node) with true.
  - destruct (has_children node), (has_algorithm node); cbn; eauto.
  - unfold is_end_of_chain. rewrite Hpar, bool_decide_eq_true_2 by reflexivity.
    now rewrite orb_true_r.
Qed.

(** The marks left by the walk from an effector on a node without parent. *)
Lemma mark_nodes_root fuel g eff a cs j :
  exists m,
    (m = MARK_END \/ m = MARK_BEGIN_AND_END)
    /\ mark_nodes (S fuel) ∅ [Ptr (Node g (Some eff) a cs) []] (plenty j)
       = Ret (0, {[ g := m ]}) (plenty j).
Proof.
  destruct (new_mark_of_root_effector
              (if negb (int_cast (chain_length eff) =? 0)
               then int_cast (chain_length eff) else -1)
              (Ptr (Node g (Some eff) a cs) []) eq_refl eq_refl)
    as (m & Hm & Hnm).
  exists m. split; [exact Hm|].
  cbn [mark_nodes self effector]. unfold bind.
  rewrite (mark_chain_break fuel _ _ ∅ m j); [reflexivity| |exact Hnm|reflexivity].
  unfold is_end_of_chain. now rewrite orb_true_r.
Qed.

Lemma update_plenty_eq oom noeff fuel tree j effector_nodes :
  find_all_effector_nodes [] (ancestors tree) (self tree) (plenty j)
    = Ret (0, effector_nodes) (plenty j) ->
  effector_nodes <> [] ->
  ik_joblist_update oom noeff fuel tree (plenty j) =
    match mark_nodes fuel ∅ effector_nodes (plenty j) with
    | Ret (status, marked) w' =>
        if negb (status =? IK_OK) then Ret status w'
        else replace_solvers tree marked w'
    | Fault f => Fault f
    | OutOfFuel => OutOfFuel
    end.
Proof.
  intros Hfind Hne. unfold ik_joblist_update, vector_init, btree_init.
  rewrite (bind_ret _ _ _ _ _ (try_alloc_plenty j)). cbn [negb].
  rewrite (bind_ret _ _ _ _ _ Hfind). cbv beta iota.
  change (0 =? IK_OK) with true. cbn [negb].
  destruct effector_nodes as [|e es]; [congruence|].
  replace (Z.of_nat (length (e :: es)) =? 0) with false
    by (symmetry; apply Z.eqb_neq; cbn [length]; lia).
  rewrite (bind_ret _ _ _ _ _ (try_alloc_plenty j)). cbn [negb].
  unfold bind at 1.
  destruct (mark_nodes fuel ∅ (e :: es) (plenty j)) as [[st m] w'| |]; try reflexivity.
  unfold ret. now destruct (negb (st =? IK_OK)).
Qed.

Lemma update_root_effector oom noeff fuel g eff a cs j :
  Forall no_effectors cs ->
  ik_joblist_update oom noeff (S fuel) (Ptr (Node g (Some eff) a cs) []) (plenty j)
    = Fault AssertionFailed.
Proof.
  intros Hcs.
  rewrite (update_plenty_eq _ _ _ _ _ [Ptr (Node g (Some eff) a cs) []]);
    [|cbn [self ancestors]|discriminate].
  - destruct (mark_nodes_root fuel g eff a cs j) as (m & Hm & ->).
    change (negb (0 =? IK_OK)) with false. cbv iota.
    unfold replace_solvers, bind, set_joblist. cbn [allocator plenty self ancestors].
    rewrite alloc_solvers_null_leaf with (m := m); [reflexivity| |exact Hm].
    apply lookup_singleton_eq.
  - rewrite find_all_effector_nodes_eq. unfold bind at 1.
    rewrite (NODE_FOR_EACH_skip _ cs [] (plenty j)); [reflexivity|].
    rewrite Forall_forall in *. intros c Hc.
    apply find_all_effector_nodes_none. auto.
Qed.

(** C1.  The chain-marking pass does not terminate on every tree: when the
    first effector node the scan found has a parent, the walk from it is
    still running after any number of passes (every request for memory being
    granted), and so is the rebuild. *)
Theorem update_never_returns (IK_ERR_OUT_OF_MEMORY IK_ERR_NO_EFFECTORS_FOUND : ikret)
    (fuel : nat) (tree node : node_ptr) (rest : list node_ptr)
    (eff : ik_effector) (j : ik_joblist) :
  find_all_effector_nodes [] (ancestors tree) (self tree) (plenty j)
    = Ret (0, node :: rest) (plenty j) ->
  effector (self node) = Some eff ->
  parent node <> None ->
  mark_nodes fuel ∅ (node :: rest) (plenty j) = OutOfFuel
  /\ ik_joblist_update IK_ERR_OUT_OF_MEMORY IK_ERR_NO_EFFECTORS_FOUND
       fuel tree (plenty j) = OutOfFuel.
Proof.
  intros Hfind Heff Hpar.
  pose proof (mark_nodes_out_of_fuel fuel ∅ node rest eff j Heff Hpar) as Hm.
  split; [exact Hm|].
  rewrite (update_plenty_eq _ _ _ _ _ (node :: rest) Hfind) by discriminate.
  now rewrite Hm.
Qed.

Lemma update_never_returns_witness :
  mark_nodes 1000 ∅ [Ptr two_nodes_leaf [two_nodes]] (plenty (Joblist [])) = OutOfFuel
  /\ ik_joblist_update (-2) (-3) 1000 (Ptr two_nodes []) (plenty (Joblist []))
     = OutOfFuel.
Proof.
  apply (update_never_returns (-2) (-3) 1000 (Ptr two_nodes [])
           (Ptr two_nodes_leaf [two_nodes]) [] (Effector 1) (Joblist []));
    [reflexivity|reflexivity|discriminate].
Defined.

(** C10.  The tree root carries an effector (and no other node does): the
    walk marks it END or BEGIN_AND_END, [alloc_solvers] is entered on it with
    [current_subtree] NULL, and [assert(current_subtree != NULL)] fails. *)
Theorem root_effector_assertion_fails
    (IK_ERR_OUT_OF_MEMORY IK_ERR_NO_EFFECTORS_FOUND : ikret) (fuel : nat)
    (g : Z) (eff : ik_effector) (a : option ik_algorithm) (cs : list ik_node)
    (j : ik_joblist) :
  Forall no_effectors cs ->
  let tree := Ptr (Node g (Some eff) a cs) [] in
  (exists marked m,
      mark_nodes (S fuel) ∅ [tree] (plenty j) = Ret (0, marked) (plenty j)
      /\ btree_find marked g = Some m
      /\ (m = MARK_END \/ m = MARK_BEGIN_AND_END)
      /\ alloc_solvers marked (ancestors tree) (self tree) None
           (plenty (Joblist [])) = Fault AssertionFailed)
  /\ ik_joblist_update IK_ERR_OUT_OF_MEMORY IK_ERR_NO_EFFECTORS_FOUND
       (S fuel) tree (plenty j) = Fault AssertionFailed.
Proof.
  intros Hcs tree. split; [|now apply update_root_effector].
  destruct (mark_nodes_root fuel g eff a cs j) as (m & Hm & Hmark).
  exists {[ g := m ]}, m. split; [exact Hmark|].
  assert (btree_find {[ g := m ]} g = Some m) as Hfind
    by apply lookup_singleton_eq.
  split; [exact Hfind|]. split; [exact Hm|].
  now apply alloc_solvers_null_leaf with m.
Qed.

Lemma root_effector_assertion_fails_witness :
  ik_joblist_update (-2) (-3) 1 (Ptr (Node 1 (Some (Effector 0)) (Some 7) []) [])
    (plenty (Joblist [])) = Fault AssertionFailed.
Proof.
  apply (root_effector_assertion_fails (-2) (-3) 0 1 (Effector 0) (Some 7) []
           (Joblist [])).
  constructor.
Defined.

(** C3.  The rebuild on a linear chain with one effector of unbounded chain
    length on the leaf, every request for memory granted: with a single node
    the assertion of [alloc_solvers] fails; with more the walk from the leaf
    is still running after any number of passes.  No subtree is produced. *)
Theorem update_linear_chain (IK_ERR_OUT_OF_MEMORY IK_ERR_NO_EFFECTORS_FOUND : ikret)
    (fuel : nat) (inner : list (Z * option ik_algorithm))
    (g : Z) (a : option ik_algorithm) (j : ik_joblist) :
  ik_joblist_update IK_ERR_OUT_OF_MEMORY IK_ERR_NO_EFFECTORS_FOUND (S fuel)
    (Ptr (linear_chain inner (Node g (Some (Effector 0)) a [])) []) (plenty j)
  = match inner with
    | [] => Fault AssertionFailed
    | _ :: _ => OutOfFuel
    end.
Proof.
  destruct inner as [|ga rest]; [apply update_root_effector; constructor|].
  pose (leaf := Node g (Some (Effector 0)) a []).
  rewrite (update_plenty_eq _ _ _ (Ptr (linear_chain (ga :: rest) leaf) []) _ _
             (find_all_effector_nodes_chain (ga :: rest) g (Effector 0) a [] [] j))
    by discriminate.
  cbn [app].
  rewrite (mark_nodes_out_of_fuel _ _ _ _ (Effector 0)); [reflexivity| |].
  - now rewrite chain_leaf_ptr_self.
  - apply chain_leaf_ptr_parent. left. discriminate.
Qed.

(** ** new_solver *)

Lemma find_algorithm_walk node up :
  find_algorithm node up = first_algorithm (removelast (node :: up)).
Proof.
  revert node. induction up as [|p up IH]; intros node; [reflexivity|].
  cbn [find_algorithm]. rewrite IH.
  change (removelast (node :: p :: up)) with (node :: removelast (p :: up)).
  reflexivity.
Qed.

Lemma new_solver_eq st w :
  new_solver st w =
    match first_algorithm (removelast (path (root st))) with
    | None => Ret None w
    | Some a => ik_solver_create st a w
    end.
Proof.
  unfold new_solver, path. rewrite find_algorithm_walk.
  now destruct (first_algorithm _).
Qed.

Lemma ik_solver_create_inv st a w r w' :
  ik_solver_create st a w = Ret r w' ->
  joblist w' = joblist w /\ (r = None \/ r = Some (Solver st a)).
Proof.
  unfold ik_solver_create. intros H.
  apply bind_inv in H as (ok & w1 & Halloc & H). inversion H; subst.
  split; [now apply try_alloc_joblist in Halloc|].
  destruct ok; auto.
Qed.

Lemma new_solver_inv st w r w' :
  new_solver st w = Ret r w' ->
  joblist w' = joblist w
  /\ (r = None
      \/ exists a, r = Some (Solver st a)
                   /\ first_algorithm (removelast (path (root st))) = Some a).
Proof.
  rewrite new_solver_eq.
  destruct (first_algorithm _) as [a|].
  - intros H. apply ik_solver_create_inv in H as [Hj [->| ->]]; eauto.
  - intros H. inversion H; subst. auto.
Qed.

Lemma vector_push_inv {A} (v : list A) x w r w' :
  vector_push v x w = Ret r w' ->
  joblist w' = joblist w /\ (r = None \/ r = Some (v ++ [x])).
Proof.
  unfold vector_push. intros H.
  apply bind_inv in H as (ok & w1 & Halloc & H). inversion H; subst.
  split; [now apply try_alloc_joblist in Halloc|].
  destruct ok; auto.
Qed.

(** ** Nesting of pointers and the order of jobs *)

Lemma proper_descendant_length p q :
  proper_descendant p q -> (length (path q) < length (path p))%nat.
Proof.
  intros (l & Hl & ->). rewrite length_app.
  destruct l; [congruence|]. cbn [length]. lia.
Qed.

Lemma under_self up node : under up node (Ptr node up).
Proof. now exists []. Qed.

Lemma under_child up node c p :
  under (node :: up) c p -> under up node p.
Proof.
  intros [l Hl]. exists (l ++ [c]). now rewrite <- app_assoc.
Qed.

Lemma under_child_length up node c p :
  under (node :: up) c p -> (length (node :: up) < length (path p))%nat.
Proof. intros [l ->]. rewrite length_app. cbn [length]. lia. Qed.

(** Pointers below two children of one node are nested only if the two
    children are the same. *)
Lemma under_siblings up node c1 c2 p q :
  under (node :: up) c1 p -> under (node :: up) c2 q ->
  proper_descendant p q -> c1 = c2.
Proof.
  intros [l1 H1] [l2 H2] (l & _ & H). rewrite H1, H2 in H.
  change (l1 ++ c1 :: node :: up) with (l1 ++ [c1] ++ node :: up) in H.
  change (l2 ++ c2 :: node :: up) with (l2 ++ [c2] ++ node :: up) in H.
  rewrite !app_assoc in H. apply app_inv_tail in H.
  apply app_inj_tail in H as [_ H]. exact H.
Qed.

Lemma nested_first_nil : nested_first [].
Proof. intros i j A B H. now rewrite lookup_nil in H. Qed.

Lemma nested_first_app l1 l2 :
  nested_first l1 -> nested_first l2 ->
  (forall A B, A ∈ l2 -> B ∈ l1 ->
     ~ proper_descendant (root (solver_subtree A)) (root (solver_subtree B))) ->
  nested_first (l1 ++ l2).
Proof.
  intros H1 H2 Hcross i j A B Hi Hj Hd.
  apply lookup_app_Some in Hi as [Hi|[Hi1 Hi]];
    apply lookup_app_Some in Hj as [Hj|[Hj1 Hj]].
  - now apply (H1 i j A B).
  - apply lookup_lt_Some in Hi. lia.
  - exfalso. apply (Hcross A B); [| |exact Hd].
    + apply list_elem_of_lookup. eauto.
    + apply list_elem_of_lookup. eauto.
  - pose proof (H2 _ _ A B Hi Hj Hd). lia.
Qed.

Lemma nested_first_snoc l s up node :
  nested_first l ->
  root (solver_subtree s) = Ptr node up ->
  Forall (fun A => (length (node :: up) < length (path (root (solver_subtree A))))%nat) l ->
  nested_first (l ++ [s]).
Proof.
  intros Hl Hs Hbelow. apply nested_first_app; [exact Hl| |].
  - intros i j A B Hi Hj Hd.
    apply list_lookup_singleton_Some in Hi as [-> <-].
    apply list_lookup_singleton_Some in Hj as [-> <-].
    apply proper_descendant_length in Hd. lia.
  - intros A B HA HB Hd. apply list_elem_of_singleton in HA as ->.
    rewrite Forall_forall in Hbelow. apply Hbelow in HB.
    apply proper_descendant_length in Hd. rewrite Hs in Hd.
    unfold path in Hd at 2. cbn [self ancestors] in Hd. lia.
Qed.

(** ** Unique guids *)

Lemma guid_in_guids t : guid t ∈ guids t.
Proof. destruct t. cbn. apply list_elem_of_here. Qed.

Lemma NoDup_guids_children g e a cs :
  NoDup (guids (Node g e a cs)) ->
  NoDup cs /\ Forall (fun c => NoDup (guids c)) cs.
Proof.
  cbn [guids]. intros H. apply NoDup_cons_1_2 in H.
  induction cs as [|c cs IH]; [split; constructor|].
  cbn [flat_map] in H. apply NoDup_app in H as (Hc & Hdisj & Hcs).
  destruct (IH Hcs) as [IH1 IH2]. split; constructor; auto.
  intros Hin. apply (Hdisj (guid c)); [apply guid_in_guids|].
  apply list_elem_of_In, in_flat_map. exists c.
  split; apply list_elem_of_In; [exact Hin|apply guid_in_guids].
Qed.

(** ** Loops over the children *)

(** An invariant [I] of the children done so far, the loop's variable and
    the state, kept by each body, holds when the loop is left. *)
Lemma NODE_FOR_EACH_inv {S} (body : ik_node -> S -> M (int * S))
    (I : list ik_node -> S -> world -> Prop) cs :
  (forall pre c post s w rc s1 w1,
      cs = pre ++ c :: post -> I pre s w ->
      body c s w = Ret (rc, s1) w1 -> I (pre ++ [c]) s1 w1) ->
  forall s w done s' w',
    I [] s w ->
    NODE_FOR_EACH body cs s w = Ret (done, s') w' ->
    exists pre post, cs = pre ++ post /\ I pre s' w'
                     /\ (done = true -> post = []).
Proof.
  intros Hstep.
  enough (forall rest pre s w done s' w',
             cs = pre ++ rest -> I pre s w ->
             NODE_FOR_EACH body rest s w = Ret (done, s') w' ->
             exists pre' post, cs = pre' ++ post /\ I pre' s' w'
                               /\ (done = true -> post = [])) as Hgen.
  { intros s w done s' w' HI Hrun. now apply (Hgen cs [] s w). }
  induction rest as [|c rest IH]; intros pre s w done s' w' Hcs HI Hrun.
  - inversion Hrun; subst. exists pre, []. auto.
  - cbn [NODE_FOR_EACH] in Hrun.
    apply bind_inv in Hrun as ([rc s1] & w1 & Hbody & Hrun).
    pose proof (Hstep _ _ _ _ _ _ _ _ Hcs HI Hbody) as HI1.
    destruct (rc =? 0).
    + apply (IH (pre ++ [c]) s1 w1); [|exact HI1|exact Hrun].
      now rewrite <- app_assoc.
    + inversion Hrun; subst. exists (pre ++ [c]), rest.
      split; [now rewrite <- app_assoc|]. split; [exact HI1|discriminate].
Qed.

(** ** The partitioner *)

Lemma same_root_refl cur : same_root cur cur.
Proof. now destruct cur. Qed.

Lemma same_root_trans c1 c2 c3 :
  same_root c1 c2 -> same_root c2 c3 -> same_root c1 c3.
Proof. destruct c1, c2, c3; cbn; congruence || tauto. Qed.

Lemma appended_refl D (place : node_ptr -> Prop) w w' :
  joblist w' = joblist w -> appended D place w w'.
Proof.
  intros H. exists []. rewrite H, app_nil_r.
  split; [reflexivity|]. split; [constructor|intros _; apply nested_first_nil].
Qed.

Lemma appended_weaken (D D' : Prop) (P Q : node_ptr -> Prop) w w' :
  (D' -> D) -> (forall p, P p -> Q p) -> appended D P w w' -> appended D' Q w w'.
Proof.
  intros HD HPQ (new & Hnew & Hall & Hord). exists new.
  split; [exact Hnew|]. split; [|auto].
  eapply Forall_impl; [exact Hall|]. intros s. apply HPQ.
Qed.

Lemma appended_joblist D (P : node_ptr -> Prop) w1 w2 w3 :
  joblist w2 = joblist w1 -> appended D P w2 w3 -> appended D P w1 w3.
Proof. intros Hj (new & Hnew & H). exists new. now rewrite <- Hj. Qed.

Lemma appended_joblist_r D (P : node_ptr -> Prop) w1 w2 w3 :
  joblist w3 = joblist w2 -> appended D P w1 w2 -> appended D P w1 w3.
Proof. intros Hj (new & Hnew & H). exists new. now rewrite Hj. Qed.

(** The loop over the children of [node], when each child's call behaves. *)
Lemma children_loop_post marked up node cs :
  Forall (fun c => forall up cur w rc cur' w',
              alloc_solvers marked up c cur w = Ret (rc, cur') w' ->
              alloc_post up c cur w rc cur' w') cs ->
  forall cur w done cur' w',
    NODE_FOR_EACH (fun child cur => alloc_solvers marked (node :: up) child cur)
                  cs cur w = Ret (done, cur') w' ->
    same_root cur cur'
    /\ appended (NoDup cs /\ Forall (fun c => NoDup (guids c)) cs)
                (fun p => exists c, under (node :: up) c p) w w'.
Proof.
  intros IH cur w done cur' w' Hrun.
  set (D := NoDup cs /\ Forall (fun c => NoDup (guids c)) cs).
  pose (I := fun (pre : list ik_node) (c1 : option ik_subtree) (w1 : world) =>
               same_root cur c1
               /\ appended D (fun p => exists c, c ∈ pre /\ under (node :: up) c p) w w1).
  destruct (NODE_FOR_EACH_inv
              (fun child cur => alloc_solvers marked (node :: up) child cur) I cs)
    with (s := cur) (w := w) (done := done) (s' := cur') (w' := w')
    as (pre & post & _ & [Hroot Happ] & _);
    [ | split; [apply same_root_refl|now apply appended_refl] | exact Hrun | ].
  - intros pre c post s w1 rc s1 w2 Hcs [Hroot (new & Hnew & Hall & Hord)] Hbody.
    rewrite Forall_forall in IH.
    assert (c ∈ cs) as Hc
      by (rewrite Hcs; apply elem_of_app; right; apply list_elem_of_here).
    destruct (IH c Hc _ _ _ _ _ _ Hbody) as (_ & Hroot1 & newc & Hnewc & Hallc & Hordc).
    split; [now apply same_root_trans with s|].
    exists (new ++ newc). split; [now rewrite Hnewc, Hnew, app_assoc|].
    split.
    + apply Forall_app. split.
      * eapply Forall_impl; [exact Hall|]. intros s0 (c0 & Hc0 & Hu).
        exists c0. split; [apply elem_of_app; now left|exact Hu].
      * eapply Forall_impl; [exact Hallc|]. intros s0 Hu.
        exists c. split; [apply elem_of_app; right; apply list_elem_of_here|exact Hu].
    + intros HD. pose proof HD as [Hnodup Hsub].
      rewrite Forall_forall in Hsub.
      apply nested_first_app; [auto|auto|].
      intros A B HA HB Hd.
      rewrite Forall_forall in Hall, Hallc.
      destruct (Hall B HB) as (c0 & Hc0 & Hu0).
      pose proof (under_siblings _ _ _ _ _ _ (Hallc A HA) Hu0 Hd) as ->.
      rewrite Hcs in Hnodup. apply NoDup_app in Hnodup as (_ & Hdisj & _).
      apply (Hdisj c0 Hc0). apply list_elem_of_here.
  - split; [exact Hroot|].
    eapply appended_weaken; [| |exact Happ]; [tauto|].
    intros p (c & _ & Hu). eauto.
Qed.

(** [recurse_with_new_subtree] on [node], given what its loop over the
    children does: the job appended last, if any, is the one of [node], with
    the first algorithm found from [node] upward among the nodes that have a
    parent. *)
Lemma recurse_with_new_subtree_body_post D up node
    (for_children : option ik_subtree -> M (bool * option ik_subtree)) w rc w' :
  (forall cur w done cur' w',
      for_children cur w = Ret (done, cur') w' ->
      same_root cur cur'
      /\ appended D (fun p => exists c, under (node :: up) c p) w w') ->
  recurse_with_new_subtree_body for_children (Ptr node up) w = Ret rc w' ->
  (rc = 0 \/ rc = -1)
  /\ appended D (under up node) w w'
  /\ (rc = 0 ->
      exists st a,
        first_algorithm (removelast (node :: up)) = Some a
        /\ root st = Ptr node up
        /\ last (solvers (joblist w')) = Some (Solver st a)).
Proof.
  intros Hloop Hrun. unfold recurse_with_new_subtree_body in Hrun.
  apply bind_inv in Hrun as (ok & w1 & Hinit & Hrun).
  apply try_alloc_joblist in Hinit.
  destruct ok; cbn [negb] in Hrun.
  2:{ inversion Hrun; subst. split; [now right|].
      split; [now apply appended_refl|]. intros; lia. }
  apply bind_inv in Hrun as ([done cur] & w2 & Hchildren & Hrun).
  apply Hloop in Hchildren as [Hroot Happ].
  assert (appended D (under up node) w w2) as Happ2.
  { apply appended_joblist with w1; [exact Hinit|].
    eapply appended_weaken; [| |exact Happ]; [tauto|].
    intros p [c Hu]. now apply under_child with c. }
  destruct done; cbn [negb] in Hrun.
  2:{ inversion Hrun; subst. split; [now right|]. split; [exact Happ2|]. intros; lia. }
  destruct cur as [st|]; [|discriminate].
  cbn in Hroot.
  apply bind_inv in Hrun as (solver & w3 & Hsolver & Hrun).
  apply new_solver_inv in Hsolver as [Hj3 Hsolver].
  destruct Hsolver as [->|(a & -> & Halg)].
  { inversion Hrun; subst. split; [now right|].
    split; [now apply appended_joblist_r with w2|]. intros; lia. }
  apply bind_inv in Hrun as (j & w4 & Hget & Hrun).
  inversion Hget; subst j w4.
  apply bind_inv in Hrun as (v & w4 & Hpush & Hrun).
  apply vector_push_inv in Hpush as [Hj4 Hpush].
  destruct Hpush as [->| ->].
  { inversion Hrun; subst. split; [now right|].
    split; [|intros; lia].
    apply appended_joblist_r with w2; [congruence|exact Happ2]. }
  inversion Hrun; subst. split; [now left|].
  split.
  - destruct Happ as (new & Hnew & Hall & Hord).
    exists (new ++ [Solver st a]). cbn [joblist solvers].
    split; [now rewrite Hj3, Hnew, <- Hinit, app_assoc|].
    split.
    + apply Forall_app. split.
      * eapply Forall_impl; [exact Hall|].
        intros s [c Hu]. now apply under_child with c.
      * constructor; [|constructor]. cbn. rewrite <- Hroot. apply under_self.
    + intros HD. apply nested_first_snoc with up node; [auto|now cbn|].
      eapply Forall_impl; [exact Hall|].
      intros s [c Hu]. now apply under_child_length with c.
  - intros _. exists st, a. rewrite <- Hroot in Halg. unfold path in Halg.
    cbn [self ancestors] in Halg.
    split; [exact Halg|]. split; [now symmetry|].
    cbn [joblist solvers]. apply last_snoc.
Qed.

Lemma alloc_solvers_post marked node :
  forall up cur w rc cur' w',
    alloc_solvers marked up node cur w = Ret (rc, cur') w' ->
    alloc_post up node cur w rc cur' w'.
Proof.
  induction node as [g e a cs IH] using ik_node_rect_nested.
  intros up cur w rc cur' w' Hrun.
  set (D := NoDup (guids (Node g e a cs))).
  assert (forall cur w done cur' w',
             NODE_FOR_EACH
               (fun child cur => alloc_solvers marked (Node g e a cs :: up) child cur)
               cs cur w = Ret (done, cur') w' ->
             same_root cur cur'
             /\ appended D (fun p => exists c, under (Node g e a cs :: up) c p) w w')
    as Hloop.
  { intros c0 w0 d0 c1 w1 H.
    apply (children_loop_post marked up (Node g e a cs) cs IH) in H as [Hroot Happ].
    split; [exact Hroot|].
    eapply appended_weaken; [| |exact Happ]; [|auto].
    apply NoDup_guids_children. }
  clear IH.
  assert (forall cur w rc cur' w',
             (let* '(done, cur') :=
                NODE_FOR_EACH
                  (fun child cur => alloc_solvers marked (Node g e a cs :: up) child cur)
                  cs cur in
              ret (if done then 0 else -1, cur')) w = Ret (rc, cur') w' ->
             alloc_post up (Node g e a cs) cur w rc cur' w') as Hsection.
  { intros c0 w0 rc0 c1 w1 H.
    apply bind_inv in H as ([done c2] & w2 & Hchildren & H).
    inversion H; subst. apply Hloop in Hchildren as [Hroot Happ].
    split; [destruct done; auto|]. split; [exact Hroot|].
    eapply appended_weaken; [| |exact Happ]; [auto|].
    intros p [c Hu]. now apply under_child with c. }
  assert (forall cur w rc cur' w',
             (let* rc :=
                recurse_with_new_subtree_body
                  (NODE_FOR_EACH
                     (fun child cur =>
                        alloc_solvers marked (Node g e a cs :: up) child cur) cs)
                  (Ptr (Node g e a cs) up) in
              ret (rc, cur)) w = Ret (rc, cur') w' ->
             alloc_post up (Node g e a cs) cur w rc cur' w') as Hbegin.
  { intros c0 w0 rc0 c1 w1 H.
    apply bind_inv in H as (rc1 & w2 & Hrec & H). inversion H; subst.
    apply (recurse_with_new_subtree_body_post D) in Hrec as (Hrc & Happ & _);
      [|exact Hloop].
    split; [exact Hrc|]. split; [apply same_root_refl|exact Happ]. }
  assert (forall w r w',
             (let* _ := assert (bool_decide (cur <> None)) in
              match cur with
              | None => raise NullDereference
              | Some st =>
                  let* v := vector_push (leaves st) (Ptr (Node g e a cs) up) in
                  ret (match v with
                       | Some v' => Some (Some (Subtree (root st) v'))
                       | None => None
                       end)
              end) w = Ret r w' ->
             joblist w' = joblist w
             /\ match r with Some cur1 => same_root cur cur1 | None => True end)
    as Hpush.
  { intros w0 r w1 H. destruct cur as [st|]; [|discriminate].
    apply bind_inv in H as ([] & w2 & Hassert & H). inversion Hassert; subst w2.
    apply bind_inv in H as (v & w2 & Hv & H). inversion H; subst.
    apply vector_push_inv in Hv as [Hj [->| ->]]; split; auto. reflexivity. }
  cbn [alloc_solvers] in Hrun. unfold btree_find in Hrun.
  destruct (marked !! g) as [[]|].
  - now apply Hsection.
  - now apply Hbegin.
  - apply bind_inv in Hrun as (r & w1 & Hp & Hrun).
    apply Hpush in Hp as [Hj Hr]. destruct r as [cur1|].
    + apply Hsection in Hrun as (Hrc & Hroot & Happ).
      split; [exact Hrc|]. split; [now apply same_root_trans with cur1|].
      now apply appended_joblist with w1.
    + inversion Hrun; subst. split; [now right|].
      split; [apply same_root_refl|now apply appended_refl].
  - apply bind_inv in Hrun as (r & w1 & Hp & Hrun).
    apply Hpush in Hp as [Hj Hr]. destruct r as [cur1|].
    + apply Hbegin in Hrun as (Hrc & Hroot & Happ).
      split; [exact Hrc|]. split; [now apply same_root_trans with cur1|].
      now apply appended_joblist with w1.
    + inversion Hrun; subst. split; [now right|].
      split; [apply same_root_refl|now apply appended_refl].
  - inversion Hrun; subst. split; [now left|].
    split; [apply same_root_refl|now apply appended_refl].
Qed.

(** ** What the scan and the marker return *)

Lemma find_all_effector_nodes_ret t :
  forall result up w rc result' w',
    find_all_effector_nodes result up t w = Ret (rc, result') w' ->
    (rc = 0 \/ rc = -1) /\ joblist w' = joblist w.
Proof.
  induction t as [g e a cs IH] using ik_node_rect_nested.
  intros result up w rc result' w' Hrun.
  rewrite find_all_effector_nodes_eq in Hrun.
  apply bind_inv in Hrun as ([done r1] & w1 & Hloop & Hrun).
  assert (joblist w1 = joblist w) as Hj1.
  { destruct (NODE_FOR_EACH_inv
                (fun child r => find_all_effector_nodes r (Node g e a cs :: up) child)
                (fun _ _ w1 => joblist w1 = joblist w) cs)
      with (s := result) (w := w) (done := done) (s' := r1) (w' := w1)
      as (_ & _ & _ & H & _); [|reflexivity|exact Hloop|exact H].
    intros pre c post s w2 rc2 s2 w3 Hcs Hj Hbody.
    rewrite Forall_forall in IH.
    apply IH in Hbody as [_ Hbody]; [congruence|].
    rewrite Hcs. apply elem_of_app. right. apply list_elem_of_here. }
  destruct done; cbn [negb] in Hrun; [|inversion Hrun; subst; auto].
  destruct e as [eff|]; [|inversion Hrun; subst; auto].
  apply bind_inv in Hrun as (r & w2 & Hpush & Hrun).
  apply vector_push_inv in Hpush as [Hj2 _].
  destruct r; inversion Hrun; subst; split; auto; congruence.
Qed.

Lemma btree_insert_or_get_joblist marked key value w r w' :
  btree_insert_or_get marked key value w = Ret r w' -> joblist w' = joblist w.
Proof.
  unfold btree_insert_or_get. destruct (marked !! key).
  - intros H. now inversion H.
  - intros H. apply bind_inv in H as (ok & w1 & Halloc & H).
    apply try_alloc_joblist in Halloc. inversion H; subst. exact Halloc.
Qed.

Lemma mark_visit_ret c node marked w r w' :
  mark_visit c node marked w = Ret r w' ->
  joblist w' = joblist w /\ (forall rc, r = inl rc -> rc = -1).
Proof.
  unfold mark_visit. destruct (is_fatal _).
  { intros H. inversion H; subst. split; [reflexivity|]. congruence. }
  destruct (new_mark_of c node) as [nm|].
  2:{ intros H. inversion H; subst. split; [reflexivity|]. congruence. }
  intros H. apply bind_inv in H as ([st m] & w1 & Hins & H).
  apply btree_insert_or_get_joblist in Hins.
  destruct st; [destruct (decide (nm = MARK_SECTION))| |];
    inversion H; subst; split; auto; congruence.
Qed.

Lemma mark_chain_ret fuel c node :
  forall marked w r w',
    mark_chain fuel c node marked w = Ret r w' ->
    joblist w' = joblist w /\ (forall rc, r = inl rc -> rc = -1).
Proof.
  induction fuel as [|fuel IH]; intros marked w r w' H; [discriminate|].
  cbn [mark_chain] in H. apply bind_inv in H as (r1 & w1 & Hv & H).
  apply mark_visit_ret in Hv as [Hj Hrc].
  destruct r1 as [rc|marked'].
  - inversion H; subst. auto.
  - destruct ((c =? 0) || bool_decide (parent node = None)).
    + inversion H; subst. split; [exact Hj|]. congruence.
    + apply IH in H as [Hj' Hrc']. split; [congruence|exact Hrc'].
Qed.

Lemma mark_nodes_ret fuel effector_nodes :
  forall marked w rc marked' w',
    mark_nodes fuel marked effector_nodes w = Ret (rc, marked') w' ->
    joblist w' = joblist w /\ (rc = 0 \/ rc = -1).
Proof.
  induction effector_nodes as [|node rest IH]; intros marked w rc marked' w' H.
  - inversion H; subst. auto.
  - cbn [mark_nodes] in H. destruct (effector (self node)); [|discriminate].
    apply bind_inv in H as (r & w1 & Hc & H).
    apply mark_chain_ret in Hc as [Hj Hrc]. destruct r as [rc1|m1].
    + inversion H; subst. split; [exact Hj|]. right. now apply Hrc.
    + apply IH in H as [Hj' H]. split; [congruence|exact H].
Qed.

(** ** The rebuild *)

Lemma replace_solvers_inv tree marked w status w' :
  replace_solvers tree marked w = Ret status w' ->
  exists cur',
    alloc_solvers marked (ancestors tree) (self tree) None
                  (World (Joblist []) (allocator w)) = Ret (status, cur') w'.
Proof.
  unfold replace_solvers. intros H.
  apply bind_inv in H as ([] & w1 & Hset & H). inversion Hset; subst w1.
  apply bind_inv in H as ([rc cur'] & w2 & Hrun & H).
  exists cur'. rewrite Hrun. unfold IK_OK in H.
  destruct (rc =? 0) eqn:E; cbn [negb] in H; inversion H; subst; [|reflexivity].
  apply Z.eqb_eq in E. now subst.
Qed.

(** The stages of [ik_joblist_update]: it returns before the old solvers are
    cleared, leaving the job list as it was, or the scan found effectors, the
    marker returned 0, and it returns what the partitioner returns on the
    emptied job list. *)
Lemma ik_joblist_update_inv oom noeff fuel tree w status w' :
  ik_joblist_update oom noeff fuel tree w = Ret status w' ->
  (joblist w' = joblist w
   /\ (status = oom \/ status = noeff \/ status = -1))
  \/ (exists effector_nodes marked w1 w2 w3 w4 cur',
        find_all_effector_nodes [] (ancestors tree) (self tree) w1
          = Ret (0, effector_nodes) w2
        /\ effector_nodes <> []
        /\ mark_nodes fuel ∅ effector_nodes w3 = Ret (0, marked) w4
        /\ alloc_solvers marked (ancestors tree) (self tree) None
             (World (Joblist []) (allocator w4)) = Ret (status, cur') w').
Proof.
  unfold ik_joblist_update, vector_init, btree_init. intros H.
  apply bind_inv in H as (ok & w1 & Hinit & H).
  apply try_alloc_joblist in Hinit.
  destruct ok; cbn [negb] in H; [|inversion H; subst; auto].
  apply bind_inv in H as ([rc effs] & w2 & Hfind & H).
  pose proof (find_all_effector_nodes_ret _ _ _ _ _ _ _ Hfind) as [Hrc Hj2].
  unfold IK_OK in H.
  destruct Hrc as [-> | ->]; cbn [Z.eqb negb] in H.
  2:{ inversion H; subst. left. split; [congruence|auto]. }
  destruct (Z.of_nat (length effs) =? 0) eqn:Hcount.
  { inversion H; subst. left. split; [congruence|auto]. }
  apply bind_inv in H as (ok & w3 & Hinit3 & H).
  apply try_alloc_joblist in Hinit3.
  destruct ok; cbn [negb] in H.
  2:{ inversion H; subst. left. split; [congruence|auto]. }
  apply bind_inv in H as ([rc marked] & w4 & Hmark & H).
  pose proof (mark_nodes_ret _ _ _ _ _ _ _ Hmark) as [Hj4 Hrc].
  destruct Hrc as [-> | ->]; cbn [Z.eqb negb] in H.
  2:{ inversion H; subst. left. split; [congruence|auto]. }
  right. apply replace_solvers_inv in H as [cur' H].
  exists effs, marked, w1, w2, w3, w4, cur'.
  split; [exact Hfind|]. split; [|now split].
  intros ->. discriminate.
Qed.

(** C9.  In the job list the partitioner leaves, the job of a subtree whose
    root lies strictly below the root of another one comes before the job of
    that other one. *)
Theorem replace_solvers_nested_first (tree : node_ptr) (marked : btree_t)
    (w : world) (status : ikret) (w' : world) :
  NoDup (guids (self tree)) ->
  replace_solvers tree marked w = Ret status w' ->
  nested_first (solvers (joblist w')).
Proof.
  intros Hnodup H. apply replace_solvers_inv in H as [cur' H].
  apply alloc_solvers_post in H as (_ & _ & new & Hnew & _ & Hord).
  rewrite Hnew. cbn [joblist solvers app]. auto.
Qed.

Lemma replace_solvers_nested_first_witness :
  exists w',
    replace_solvers (Ptr lineage1 []) lineage_marks (plenty (Joblist [old_job]))
      = Ret IK_OK w'
    /\ root ∘ solver_subtree <$> solvers (joblist w')
       = [Ptr lineage3 [lineage2; lineage1]; Ptr lineage2 [lineage1]]
    /\ nested_first (solvers (joblist w')).
Proof.
  eexists. split; [vm_compute; reflexivity|]. split; [reflexivity|].
  apply (replace_solvers_nested_first (Ptr lineage1 []) lineage_marks
           (plenty (Joblist [old_job])) IK_OK).
  - apply (bool_decide_unpack _). vm_compute. exact I.
  - vm_compute. reflexivity.
Defined.

(** On a node marked BEGIN, [alloc_solvers] is [recurse_with_new_subtree]. *)
Lemma alloc_solvers_begin marked up node cur w :
  marked !! guid node = Some MARK_BEGIN ->
  alloc_solvers marked up node cur w =
    (let* rc := recurse_with_new_subtree marked (Ptr node up) in ret (rc, cur)) w.
Proof.
  destruct node as [g e a cs]. cbn [guid]. intros H.
  cbn [alloc_solvers]. unfold btree_find. now rewrite H.
Qed.




(** * Further properties of the code *)

(** ** The effector scan *)

Lemma try_alloc_inv w ok w' :
  try_alloc w = Ret ok w' ->
  joblist w' = joblist w
  /\ allocator w' `suffix_of` allocator w
  /\ (ok = false -> false ∈ allocator w).
Proof.
  unfold try_alloc. destruct (allocator w) as [|b rest] eqn:E; intros H;
    inversion H; subst; cbn [joblist allocator].
  - rewrite E. repeat split; [reflexivity|discriminate].
  - repeat split; [now exists [ok]|]. intros ->. apply list_elem_of_here.
Qed.

Lemma suffix_elem_of {A} (x : A) l1 l2 :
  l1 `suffix_of` l2 -> x ∈ l1 -> x ∈ l2.
Proof. intros [k ->] H. apply elem_of_app. now right. Qed.

Lemma scan_loop_post (f : ik_node -> list node_ptr)
    (body : ik_node -> list node_ptr -> M (int * list node_ptr)) cs :
  Forall (fun c => forall result w rc result' w',
              body c result w = Ret (rc, result') w' ->
              (rc = 0 \/ rc = -1)
              /\ scan_post (f c) result w (bool_decide (rc = 0)) result' w') cs ->
  forall result w done result' w',
    NODE_FOR_EACH body cs result w = Ret (done, result') w' ->
    scan_post (flat_map f cs) result w done result' w'.
Proof.
  induction 1 as [|c cs Hc _ IH]; intros result w done result' w' Hrun.
  - inversion Hrun; subst. repeat split; try reflexivity; [|discriminate].
    exists []. rewrite app_nil_r. repeat split. reflexivity.
  - cbn [NODE_FOR_EACH] in Hrun.
    apply bind_inv in Hrun as ([rc r1] & w1 & Hbody & Hrun).
    apply Hc in Hbody as (Hrc & Hj1 & Hs1 & (found1 & -> & Hpre1 & Hall1) & Hfail1).
    cbn [flat_map]. destruct Hrc as [-> | ->]; cbn [Z.eqb] in Hrun.
    + rewrite Hall1 in * by reflexivity. clear Hall1 Hpre1.
      apply IH in Hrun as (Hj & Hs & (found & -> & Hpre & Hall) & Hfail).
      split; [congruence|]. split; [now transitivity (allocator w1)|].
      split.
      * exists (f c ++ found). rewrite app_assoc. split; [reflexivity|].
        split; [now apply prefix_app|]. intros Hd. now rewrite Hall.
      * intros Hd. eapply suffix_elem_of; [exact Hs1|auto].
    + inversion Hrun; subst. split; [exact Hj1|]. split; [exact Hs1|].
      split.
      * exists found1. split; [reflexivity|]. split; [|discriminate].
        now apply prefix_app_r.
      * intros _. now apply Hfail1.
Qed.

Lemma find_all_effector_nodes_post t :
  forall result up w rc result' w',
    find_all_effector_nodes result up t w = Ret (rc, result') w' ->
    (rc = 0 \/ rc = -1)
    /\ scan_post (effector_ptrs up t) result w (bool_decide (rc = 0)) result' w'.
Proof.
  induction t as [g e a cs IH] using ik_node_rect_nested.
  intros result up w rc result' w' Hrun.
  rewrite find_all_effector_nodes_eq in Hrun.
  apply bind_inv in Hrun as ([done r1] & w1 & Hloop & Hrun).
  apply (scan_loop_post (effector_ptrs (Node g e a cs :: up))) in Hloop.
  2:{ rewrite Forall_forall in *. intros c Hc. intros. now apply IH. }
  destruct Hloop as (Hj1 & Hs1 & (found1 & -> & Hpre1 & Hall1) & Hfail1).
  cbn [effector_ptrs].
  destruct done; cbn [negb] in Hrun.
  2:{ inversion Hrun; subst. split; [now right|].
      split; [exact Hj1|]. split; [exact Hs1|]. split; [|auto].
      exists found1. split; [reflexivity|]. split; [|discriminate].
      now apply prefix_app_r. }
  rewrite Hall1 in * by reflexivity. clear Hall1 Hpre1 Hfail1.
  destruct e as [eff|].
  2:{ inversion Hrun; subst. split; [now left|].
      split; [exact Hj1|]. split; [exact Hs1|]. split; [|discriminate].
      eexists. split; [reflexivity|]. rewrite app_nil_r. split; reflexivity. }
  apply bind_inv in Hrun as (r & w2 & Hpush & Hrun).
  unfold vector_push in Hpush.
  apply bind_inv in Hpush as (ok & w3 & Halloc & Hpush).
  inversion Hpush; subst r w3.
  apply try_alloc_inv in Halloc as (Hj2 & Hs2 & Hfail2).
  destruct ok; inversion Hrun; subst.
  - split; [now left|]. split; [congruence|].
    split; [now transitivity (allocator w1)|]. split; [|discriminate].
    eexists. rewrite <- app_assoc. split; [reflexivity|]. split; reflexivity.
  - split; [now right|]. split; [congruence|].
    split; [now transitivity (allocator w1)|]. split.
    + eexists. split; [reflexivity|]. split; [|discriminate].
      now apply prefix_app_r.
    + intros _. eapply suffix_elem_of; [exact Hs1|auto].
Qed.

Lemma NODE_FOR_EACH_returns {S} (body : ik_node -> S -> M (int * S)) cs :
  Forall (fun c => forall s w, exists rc s' w', body c s w = Ret (rc, s') w') cs ->
  forall s w, exists done s' w', NODE_FOR_EACH body cs s w = Ret (done, s') w'.
Proof.
  induction 1 as [|c cs Hc _ IH]; intros s w; [now eexists _, _, _|].
  cbn [NODE_FOR_EACH]. destruct (Hc s w) as (rc & s1 & w1 & Hbody).
  rewrite (bind_ret _ _ _ _ _ Hbody). cbv beta iota.
  destruct (rc =? 0); [apply IH|now eexists _, _, _].
Qed.

Lemma find_all_effector_nodes_returns t :
  forall result up w,
    exists rc result' w', find_all_effector_nodes result up t w = Ret (rc, result') w'.
Proof.
  induction t as [g e a cs IH] using ik_node_rect_nested.
  intros result up w. rewrite find_all_effector_nodes_eq.
  destruct (NODE_FOR_EACH_returns
              (fun child r => find_all_effector_nodes r (Node g e a cs :: up) child) cs)
    with (s := result) (w := w) as (done & r1 & w1 & Hloop).
  { rewrite Forall_forall in *. intros c Hc s w0. now apply IH. }
  rewrite (bind_ret _ _ _ _ _ Hloop). cbv beta iota.
  destruct done; cbn [negb]; [|now eexists _, _, _].
  destruct e; [|now eexists _, _, _].
  unfold vector_push, bind, try_alloc.
  destruct (allocator w1) as [|[] al]; now eexists _, _, _.
Qed.

(** X1.  With every request for memory granted, the scan returns 0 and has
    appended to [result] the pointers to exactly the nodes of the tree that
    carry an effector, each once, those below a node before the node. *)
Theorem find_all_effector_nodes_collects (t : ik_node) (result : list node_ptr)
    (up : list ik_node) (j : ik_joblist) :
  find_all_effector_nodes result up t (plenty j)
    = Ret (0, result ++ effector_ptrs up t) (plenty j).
Proof.
  destruct (find_all_effector_nodes_returns t result up (plenty j))
    as (rc & result' & w' & Hrun).
  rewrite Hrun.
  apply find_all_effector_nodes_post in Hrun
    as (Hrc & Hj & Hs & (found & -> & _ & Hall) & Hfail).
  cbn [plenty allocator joblist] in *.
  destruct Hrc as [-> | ->].
  - rewrite Hall by reflexivity. destruct w' as [j' al']. cbn in Hj, Hs.
    apply suffix_nil_inv in Hs. now subst.
  - exfalso. specialize (Hfail eq_refl). now apply elem_of_nil in Hfail.
Qed.

(** X2.  Whatever the allocator does, a scan that returns has only appended
    to [result]: what it appended is an initial part of the effector nodes in
    scan order, all of them when it returns 0; it returns -1 only when a
    request for memory was refused; and it leaves the job list alone. *)
Theorem find_all_effector_nodes_appends (t : ik_node) (result : list node_ptr)
    (up : list ik_node) (w : world) (rc : int) (result' : list node_ptr)
    (w' : world) :
  find_all_effector_nodes result up t w = Ret (rc, result') w' ->
  (rc = 0 \/ rc = -1)
  /\ joblist w' = joblist w
  /\ (exists found,
        result' = result ++ found
        /\ found `prefix_of` effector_ptrs up t
        /\ (rc = 0 -> found = effector_ptrs up t))
  /\ (rc = -1 -> false ∈ allocator w).
Proof.
  intros Hrun.
  apply find_all_effector_nodes_post in Hrun
    as (Hrc & Hj & _ & (found & -> & Hpre & Hall) & Hfail).
  split; [exact Hrc|]. split; [exact Hj|]. split.
  - exists found. split; [reflexivity|]. split; [exact Hpre|].
    intros ->. now apply Hall.
  - intros ->. now apply Hfail.
Qed.

Lemma find_all_effector_nodes_appends_witness :
  (-1 = 0 \/ -1 = -1)
  /\ joblist (World (Joblist [old_job]) []) = joblist (World (Joblist [old_job]) [true; false])
  /\ (exists found,
        [Ptr fork4 [fork2; fork1]] = [] ++ found
        /\ found `prefix_of` effector_ptrs [] fork1
        /\ (-1 = 0 -> found = effector_ptrs [] fork1))
  /\ (-1 = -1 -> false ∈ allocator (World (Joblist [old_job]) [true; false])).
Proof.
  apply (find_all_effector_nodes_appends fork1 [] []
           (World (Joblist [old_job]) [true; false]) (-1)
           [Ptr fork4 [fork2; fork1]] (World (Joblist [old_job]) [])).
  vm_compute. reflexivity.
Defined.

Lemma effector_ptrs_under t :
  forall up p, p ∈ effector_ptrs up t ->
               under up t p /\ effector (self p) <> None.
Proof.
  induction t as [g e a cs IH] using ik_node_rect_nested.
  intros up p Hp. cbn [effector_ptrs] in Hp.
  apply elem_of_app in Hp as [Hp|Hp].
  - apply list_elem_of_In, in_flat_map in Hp as (c & Hc & Hp).
    rewrite Forall_forall in IH.
    apply list_elem_of_In in Hc, Hp.
    destruct (IH c Hc _ _ Hp) as [Hu He].
    split; [now apply under_child with c|exact He].
  - destruct e; [|now apply elem_of_nil in Hp].
    apply list_elem_of_singleton in Hp as ->.
    split; [apply under_self|discriminate].
Qed.

(** ** The chain marker *)

(** X3.  A visit that went through leaves marks on which the same visit
    changes nothing more and asks for no memory: visiting a node again is the
    identity. *)
Theorem mark_visit_idempotent (chain_length_counter : int) (node : node_ptr)
    (marked marked' : btree_t) (w w' w2 : world) :
  mark_visit chain_length_counter node marked w = Ret (inr marked') w' ->
  mark_visit chain_length_counter node marked' w2 = Ret (inr marked') w2.
Proof.
  unfold mark_visit, btree_insert_or_get.
  destruct (is_fatal _); [discriminate|].
  destruct (new_mark_of chain_length_counter node) as [nm|]; [|discriminate].
  set (g := guid (self node)).
  destruct (marked !! g) as [old|] eqn:E.
  - cbn. destruct (decide (nm = MARK_SECTION)) as [->|Hne]; intros H;
      inversion H; subst.
    + rewrite lookup_insert_eq. cbn. now rewrite insert_insert_eq.
    + rewrite E. cbn. now destruct (decide (nm = MARK_SECTION)).
  - intros H. unfold bind, try_alloc, ret in H.
    destruct (allocator w) as [|[] al]; inversion H; subst;
      rewrite lookup_insert_eq; cbn;
      (destruct (decide (nm = MARK_SECTION)) as [->|Hne]; [|reflexivity]);
      now rewrite insert_insert_eq.
Qed.

Lemma mark_visit_idempotent_witness :
  mark_visit (-1) (Ptr two_nodes_leaf [two_nodes]) {[ 2 := MARK_END ]}
             (World (Joblist []) [false])
    = Ret (inr {[ 2 := MARK_END ]}) (World (Joblist []) [false]).
Proof.
  apply (mark_visit_idempotent (-1) (Ptr two_nodes_leaf [two_nodes]) ∅
           {[ 2 := MARK_END ]} (plenty (Joblist [])) (plenty (Joblist []))).
  reflexivity.
Defined.

Lemma new_mark_of_effector_boundary c node m :
  has_effector node = true -> new_mark_of c node = Some m -> m <> MARK_SECTION.
Proof.
  intros H. rewrite new_mark_of_table, H.
  destruct (is_end_of_chain c node), (has_children node), (has_algorithm node);
    cbn; congruence.
Qed.

(** One visit of a node that carries an effector: a mark that is there stays,
    a missing one is entered from the table; -1 only for want of memory. *)
Lemma mark_visit_effector c node marked w r w' :
  has_effector node = true ->
  mark_visit c node marked w = Ret r w' ->
  allocator w' `suffix_of` allocator w
  /\ match r with
     | inl _ => false ∈ allocator w
     | inr marked' =>
         match marked !! guid (self node) with
         | Some _ => marked' = marked
         | None => exists m, new_mark_of c node = Some m
                             /\ marked' = <[guid (self node) := m]> marked
         end
     end.
Proof.
  intros Heff. destruct (new_mark_of_effector c node Heff) as [m Hm].
  pose proof (new_mark_of_effector_boundary c node m Heff Hm) as Hb.
  unfold mark_visit, btree_insert_or_get.
  rewrite (is_fatal_false _ _ _ Hm), Hm.
  destruct (marked !! guid (self node)) as [old|].
  - cbn. destruct (decide (m = MARK_SECTION)); [contradiction|].
    intros H. inversion H; subst. split; reflexivity.
  - intros H. apply bind_inv in H as ([st m1] & w1 & Hins & H).
    apply bind_inv in Hins as (ok & w2 & Halloc & Hins).
    apply try_alloc_inv in Halloc as (_ & Hs & Hfail).
    destruct ok; inversion Hins; subst; inversion H; subst.
    + split; [exact Hs|]. now exists m.
    + split; [exact Hs|]. now apply Hfail.
Qed.

Lemma marks_grow_refl effs marked : marks_grow effs marked marked.
Proof. split; [reflexivity|]. intros k m H1 H2. congruence. Qed.

Lemma marks_grow_trans effs m1 m2 m3 :
  marks_grow effs m1 m2 -> marks_grow effs m2 m3 -> marks_grow effs m1 m3.
Proof.
  intros [Hs1 Hn1] [Hs2 Hn2]. split; [now transitivity m2|].
  intros k m Hk1 Hk3. destruct (m2 !! k) as [m'|] eqn:E.
  - pose proof (lookup_weaken _ _ _ _ E Hs2) as E3.
    assert (m' = m) as -> by congruence. now apply Hn1.
  - now apply Hn2.
Qed.

Lemma marks_grow_weaken effs effs' m1 m2 :
  (forall p, p ∈ effs -> p ∈ effs') -> marks_grow effs m1 m2 -> marks_grow effs' m1 m2.
Proof.
  intros Hsub [Hs Hn]. split; [exact Hs|]. intros k m H1 H2.
  destruct (Hn k m H1 H2) as (p & eff & Hp & H). exists p, eff. auto.
Qed.

Lemma mark_chain_effector fuel node eff :
  effector (self node) = Some eff ->
  forall marked w r w',
    mark_chain fuel (initial_counter eff) node marked w = Ret r w' ->
    allocator w' `suffix_of` allocator w
    /\ match r with
       | inl _ => false ∈ allocator w
       | inr marked' =>
           parent node = None
           /\ is_Some (marked' !! guid (self node))
           /\ marks_grow [node] marked marked'
       end.
Proof.
  intros Heff.
  assert (has_effector node = true) as Hhas
    by (unfold has_effector; apply bool_decide_eq_true; congruence).
  induction fuel as [|fuel IH]; intros marked w r w' H; [discriminate|].
  cbn [mark_chain] in H. apply bind_inv in H as (r1 & w1 & Hv & H).
  apply (mark_visit_effector _ _ _ _ _ _ Hhas) in Hv as [Hs1 Hv].
  destruct r1 as [rc|marked1].
  { inversion H; subst. split; [exact Hs1|exact Hv]. }
  assert (is_Some (marked1 !! guid (self node))
          /\ marks_grow [node] marked marked1) as [Hsome Hgrow].
  { destruct (marked !! guid (self node)) as [old|] eqn:E.
    - subst. split; [now exists old|apply marks_grow_refl].
    - destruct Hv as (m & Hm & ->). split.
      + exists m. apply lookup_insert_eq.
      + split; [now apply insert_subseteq|].
        intros k m' Hk Hk'. exists node, eff.
        destruct (decide (guid (self node) = k)) as [<-|Hne].
        * rewrite lookup_insert_eq in Hk'. inversion Hk'; subst.
          repeat split; auto. apply list_elem_of_here.
        * rewrite lookup_insert_ne in Hk' by exact Hne. congruence. }
  assert ((initial_counter eff =? 0) = false) as Hc.
  { apply Z.eqb_neq. apply chain_length_counter_nonzero. }
  rewrite Hc in H. cbn [orb] in H.
  destruct (bool_decide (parent node = None)) eqn:Hpar.
  - inversion H; subst. split; [exact Hs1|].
    apply bool_decide_eq_true in Hpar. auto.
  - apply IH in H as [Hs2 H]. split; [now transitivity (allocator w1)|].
    destruct r as [rc|marked2].
    + eapply suffix_elem_of; [exact Hs1|exact H].
    + destruct H as (Hp & Hsome2 & Hgrow2). split; [exact Hp|].
      split; [exact Hsome2|]. now apply marks_grow_trans with marked1.
Qed.

Lemma mark_nodes_post fuel effs :
  forall marked w rc marked' w',
    mark_nodes fuel marked effs w = Ret (rc, marked') w' ->
    allocator w' `suffix_of` allocator w
    /\ marks_grow effs marked marked'
    /\ (rc = 0 ->
        Forall (fun p => parent p = None /\ is_Some (marked' !! guid (self p))) effs)
    /\ (rc <> 0 -> rc = -1 /\ false ∈ allocator w).
Proof.
  induction effs as [|node rest IH]; intros marked w rc marked' w' H.
  - inversion H; subst. split; [reflexivity|]. split; [apply marks_grow_refl|].
    split; [constructor|congruence].
  - cbn [mark_nodes] in H.
    destruct (effector (self node)) as [eff|] eqn:Heff; [|discriminate].
    apply bind_inv in H as (r & w1 & Hc & H).
    pose proof (mark_chain_ret _ _ _ _ _ _ _ Hc) as [_ Hminus].
    apply (mark_chain_effector fuel node eff Heff) in Hc as [Hs1 Hc].
    destruct r as [rc1|marked1].
    + inversion H; subst. split; [exact Hs1|]. split; [apply marks_grow_refl|].
      rewrite (Hminus rc eq_refl). split; [discriminate|]. now intros _.
    + destruct Hc as (Hpar & Hsome & Hgrow).
      apply IH in H as (Hs2 & Hgrow2 & Hok & Hfail).
      split; [now transitivity (allocator w1)|]. split.
      * apply marks_grow_trans with marked1.
        -- eapply marks_grow_weaken; [|exact Hgrow].
           intros p Hp. apply list_elem_of_singleton in Hp as ->.
           apply list_elem_of_here.
        -- eapply marks_grow_weaken; [|exact Hgrow2].
           intros p Hp. now apply list_elem_of_further.
      * split.
        -- intros Hrc. constructor; [|now apply Hok].
           split; [exact Hpar|]. destruct Hsome as [m Hm].
           exists m. destruct Hgrow2 as [Hsub _].
           now apply (lookup_weaken _ _ _ _ Hm Hsub).
        -- intros Hrc. destruct (Hfail Hrc) as [-> Hin]. split; [reflexivity|].
           eapply suffix_elem_of; [exact Hs1|exact Hin].
Qed.

(** X4.  Whatever [mark_nodes] returns, it has dropped or changed no mark
    that was in the map, and each mark it entered is the table's mark of one
    of the effector nodes it was given, under that node's guid, and is never
    SECTION. *)
Theorem mark_nodes_never_overwrites (fuel : nat) (marked : btree_t)
    (effector_nodes : list node_ptr) (w : world) (rc : int)
    (marked' : btree_t) (w' : world) :
  mark_nodes fuel marked effector_nodes w = Ret (rc, marked') w' ->
  marked ⊆ marked'
  /\ forall k m,
      marked !! k = None -> marked' !! k = Some m ->
      m <> MARK_SECTION
      /\ exists p eff,
          p ∈ effector_nodes /\ guid (self p) = k
          /\ effector (self p) = Some eff
          /\ new_mark_of (initial_counter eff) p = Some m.
Proof.
  intros H. apply mark_nodes_post in H as (_ & [Hsub Hnew] & _).
  split; [exact Hsub|]. intros k m Hk Hk'.
  destruct (Hnew k m Hk Hk') as (p & eff & Hp & Hg & Heff & Hm).
  split; [|now exists p, eff].
  apply (new_mark_of_effector_boundary (initial_counter eff) p); [|exact Hm].
  unfold has_effector. apply bool_decide_eq_true. congruence.
Qed.

Lemma mark_nodes_never_overwrites_witness :
  ({[ 7 := MARK_SECTION ]} : btree_t) ⊆ {[ 1 := MARK_END; 7 := MARK_SECTION ]}
  /\ forall k m,
      ({[ 7 := MARK_SECTION ]} : btree_t) !! k = None ->
      ({[ 1 := MARK_END; 7 := MARK_SECTION ]} : btree_t) !! k = Some m ->
      m <> MARK_SECTION
      /\ exists p eff,
          p ∈ [Ptr (Node 1 (Some (Effector 3)) None []) []] /\ guid (self p) = k
          /\ effector (self p) = Some eff
          /\ new_mark_of (initial_counter eff) p = Some m.
Proof.
  apply (mark_nodes_never_overwrites 1 {[ 7 := MARK_SECTION ]}
           [Ptr (Node 1 (Some (Effector 3)) None []) []]
           (plenty (Joblist [])) 0 _ (plenty (Joblist []))).
  vm_compute. reflexivity.
Defined.

(** X5.  [mark_nodes] returns 0 only when none of the effector nodes it was
    given has a parent; each of them is then marked.  This holds for every
    number of passes and whatever the allocator does. *)
Theorem mark_nodes_success_without_parent (fuel : nat) (marked : btree_t)
    (effector_nodes : list node_ptr) (w : world) (marked' : btree_t) (w' : world) :
  mark_nodes fuel marked effector_nodes w = Ret (0, marked') w' ->
  Forall (fun p => parent p = None /\ is_Some (marked' !! guid (self p)))
         effector_nodes.
Proof.
  intros H. apply mark_nodes_post in H as (_ & _ & Hok & _). now apply Hok.
Qed.

Lemma mark_nodes_success_without_parent_witness :
  Forall (fun p => parent p = None
                   /\ is_Some (({[ 1 := MARK_END ]} : btree_t) !! guid (self p)))
         [Ptr (Node 1 (Some (Effector 3)) None []) []].
Proof.
  apply (mark_nodes_success_without_parent 1 ∅
           [Ptr (Node 1 (Some (Effector 3)) None []) []]
           (plenty (Joblist [])) {[ 1 := MARK_END ]} (plenty (Joblist []))).
  vm_compute. reflexivity.
Defined.

Lemma mark_visit_returns c node marked w :
  exists r w', mark_visit c node marked w = Ret r w'.
Proof.
  unfold mark_visit, btree_insert_or_get.
  destruct (is_fatal _); [now eexists _, _|].
  destruct (new_mark_of c node) as [nm|]; [|now eexists _, _].
  destruct (marked !! guid (self node)).
  - cbn. destruct (decide (nm = MARK_SECTION)); now eexists _, _.
  - unfold bind, try_alloc. destruct (allocator w) as [|[] al]; now eexists _, _.
Qed.

Lemma mark_chain_returns fuel c node marked w :
  parent node = None ->
  exists r w', mark_chain (S fuel) c node marked w = Ret r w'.
Proof.
  intros Hpar. cbn [mark_chain].
  destruct (mark_visit_returns c node marked w) as (r & w1 & Hv).
  rewrite (bind_ret _ _ _ _ _ Hv).
  destruct r as [rc|marked1]; [now eexists _, _|].
  rewrite Hpar, bool_decide_eq_true_2, orb_true_r by reflexivity.
  now eexists _, _.
Qed.

(** X6.  On effector nodes that have no parent, [mark_nodes] returns for
    every number of passes of at least one, with 0 unless a request for
    memory was refused. *)
Theorem mark_nodes_returns_without_parent (fuel : nat) (marked : btree_t)
    (effector_nodes : list node_ptr) (w : world) :
  Forall (fun p => parent p = None /\ effector (self p) <> None) effector_nodes ->
  exists rc marked' w',
    mark_nodes (S fuel) marked effector_nodes w = Ret (rc, marked') w'
    /\ (rc = 0 \/ rc = -1 /\ false ∈ allocator w).
Proof.
  intros Hall.
  enough (exists rc marked' w',
             mark_nodes (S fuel) marked effector_nodes w = Ret (rc, marked') w')
    as (rc & marked' & w' & H).
  { exists rc, marked', w'. split; [exact H|].
    apply mark_nodes_post in H as (_ & _ & _ & Hfail).
    destruct (decide (rc = 0)); [now left|right; auto]. }
  revert marked w. induction Hall as [|p rest [Hpar Heff] _ IH]; intros marked w.
  - now eexists _, _, _.
  - cbn [mark_nodes]. destruct (effector (self p)) as [eff|]; [|congruence].
    destruct (mark_chain_returns fuel (initial_counter eff) p marked w Hpar)
      as (r & w1 & Hc).
    unfold initial_counter in Hc. rewrite (bind_ret _ _ _ _ _ Hc).
    destruct r as [rc|marked1]; [now eexists _, _, _|apply IH].
Qed.

Lemma mark_nodes_returns_without_parent_witness :
  exists rc marked' w',
    mark_nodes 1 ∅ [Ptr (Node 1 (Some (Effector 3)) None []) []]
               (World (Joblist []) [false]) = Ret (rc, marked') w'
    /\ (rc = 0 \/ rc = -1 /\ false ∈ allocator (World (Joblist []) [false])).
Proof.
  apply (mark_nodes_returns_without_parent 0 ∅
           [Ptr (Node 1 (Some (Effector 3)) None []) []]
           (World (Joblist []) [false])).
  repeat constructor. discriminate.
Defined.

(** ** The rebuild as a whole *)

(** When the scan and the marker have both returned 0, the partitioner does
    not return: the only effector node is the tree root, it is marked END or
    BEGIN_AND_END, and the partitioner is entered on it without a subtree. *)
Lemma partition_after_marking_faults tree fuel w1 w2 w3 w4 effs marked w5 :
  find_all_effector_nodes [] (ancestors tree) (self tree) w1 = Ret (0, effs) w2 ->
  effs <> [] ->
  mark_nodes fuel ∅ effs w3 = Ret (0, marked) w4 ->
  alloc_solvers marked (ancestors tree) (self tree) None w5 = Fault AssertionFailed.
Proof.
  intros Hfind Hne Hmark.
  apply find_all_effector_nodes_post in Hfind
    as (_ & _ & _ & (found & Hfound & _ & Hall) & _).
  cbn [app] in Hfound. subst found. rewrite bool_decide_eq_true_2 in Hall by reflexivity.
  specialize (Hall eq_refl).
  apply mark_nodes_post in Hmark as (_ & [_ Hnew] & Hok & _).
  specialize (Hok eq_refl). rewrite Forall_forall in Hok.
  assert (forall p, p ∈ effs -> p = Ptr (self tree) [] /\ ancestors tree = []) as Hroot.
  { intros p Hp. destruct (Hok p Hp) as [Hpar _].
    rewrite Hall in Hp. apply effector_ptrs_under in Hp as [[l Hl] _].
    unfold parent in Hpar. destruct p as [n anc]. cbn in Hpar, Hl.
    destruct anc; [|discriminate].
    destruct l as [|x l]; cbn in Hl.
    - inversion Hl; subst. auto.
    - inversion Hl as [[Hx Hnil]]. now apply app_cons_not_nil in Hnil. }
  destruct effs as [|p0 rest]; [congruence|].
  assert (p0 ∈ p0 :: rest) as Hp0 by apply list_elem_of_here.
  destruct (Hroot p0 Hp0) as [-> Hup]. rewrite Hup.
  destruct (Hok _ Hp0) as [_ [m Hm]]. cbn [self] in Hm.
  apply alloc_solvers_null_leaf with m; [exact Hm|].
  destruct (Hnew _ _ (lookup_empty _) Hm) as (p & eff & Hp & _ & Heff & Hnm).
  destruct (Hroot p Hp) as [-> _].
  destruct (new_mark_of_root_effector (initial_counter eff) (Ptr (self tree) []))
    as (m' & Hm' & Hnm'); [reflexivity| |congruence].
  unfold has_effector. apply bool_decide_eq_true. cbn [self] in *. congruence.
Qed.

(** X7.  Whatever the tree and the allocator, a rebuild that returns has
    returned before the old solvers were cleared: the job list is as it was
    and the status is one of the two error codes or -1.  (With the walk as it
    stands the marker returns 0 only for an effector on the tree root, and
    there the assertion of the partitioner fails.) *)
Theorem update_returns_before_clearing
    (IK_ERR_OUT_OF_MEMORY IK_ERR_NO_EFFECTORS_FOUND : ikret)
    (fuel : nat) (tree : node_ptr) (w : world) (status : ikret) (w' : world) :
  ik_joblist_update IK_ERR_OUT_OF_MEMORY IK_ERR_NO_EFFECTORS_FOUND fuel tree w
    = Ret status w' ->
  joblist w' = joblist w
  /\ (status = IK_ERR_OUT_OF_MEMORY \/ status = IK_ERR_NO_EFFECTORS_FOUND
      \/ status = -1).
Proof.
  intros H. apply ik_joblist_update_inv in H as [H|H]; [exact H|].
  destruct H as (effs & marked & w1 & w2 & w3 & w4 & cur' & Hfind & Hne & Hmark & H).
  rewrite (partition_after_marking_faults _ _ _ _ _ _ _ _ _ Hfind Hne Hmark) in H.
  discriminate.
Qed.

Lemma update_returns_before_clearing_witness :
  joblist (World (Joblist [old_job]) []) = joblist (World (Joblist [old_job]) [true; true; false])
  /\ (-1 = -2 \/ -1 = -3 \/ -1 = -1).
Proof.
  apply (update_returns_before_clearing (-2) (-3) 5 (Ptr fork1 [])
           (World (Joblist [old_job]) [true; true; false]) (-1)
           (World (Joblist [old_job]) [])).
  vm_compute. reflexivity.
Defined.

(** C2.  Whatever the tree, the allocator and the status, a rebuild that
    returns hands back the job list it was given: a rebuild that fails after
    effectors were found leaves the previous jobs as they were, and no partly
    built list is handed back.  (Every return of [ik_joblist_update] happens
    before the old solvers are cleared: once the marker has returned 0 the
    partitioner fails its assertion and does not return.) *)
Theorem update_failure_keeps_joblist
    (IK_ERR_OUT_OF_MEMORY IK_ERR_NO_EFFECTORS_FOUND : ikret)
    (fuel : nat) (tree : node_ptr) (w : world) (status : ikret) (w' : world) :
  ik_joblist_update IK_ERR_OUT_OF_MEMORY IK_ERR_NO_EFFECTORS_FOUND fuel tree w
    = Ret status w' ->
  joblist w' = joblist w.
Proof.
  intros H. apply ik_joblist_update_inv in H as [[H _]|H]; [exact H|].
  destruct H as (effs & marked & w1 & w2 & w3 & w4 & cur' & Hfind & Hne & Hmark & H).
  rewrite (partition_after_marking_faults _ _ _ _ _ _ _ _ _ Hfind Hne Hmark) in H.
  discriminate.
Qed.

(** A rebuild on the fork that finds both effectors and fails for want of
    memory at the first insertion of the marker: the job of the earlier
    rebuild is still the job list. *)
Lemma update_failure_keeps_joblist_witness :
  ik_joblist_update (-2) (-3) 1 (Ptr fork1 [])
    (World (Joblist [old_job]) [true; true; true; true; false])
  = Ret (-1) (World (Joblist [old_job]) [])
  /\ joblist (World (Joblist [old_job]) [])
     = joblist (World (Joblist [old_job]) [true; true; true; true; false]).
Proof.
  assert (ik_joblist_update (-2) (-3) 1 (Ptr fork1 [])
            (World (Joblist [old_job]) [true; true; true; true; false])
          = Ret (-1) (World (Joblist [old_job]) [])) as Hrun
    by (vm_compute; reflexivity).
  split; [exact Hrun|].
  exact (update_failure_keeps_joblist (-2) (-3) 1 (Ptr fork1 [])
           (World (Joblist [old_job]) [true; true; true; true; false]) (-1)
           (World (Joblist [old_job]) []) Hrun).
Defined.




(** ** ik_joblist_create *)

Lemma try_alloc_returns w : exists ok w', try_alloc w = Ret ok w'.
Proof. unfold try_alloc. destruct (allocator w); now eexists _, _. Qed.

Lemma ik_joblist_create_inv oom noeff fuel tree w r w' :
  oom <> IK_OK -> noeff <> IK_OK ->
  ik_joblist_create oom noeff fuel tree w = Ret r w' ->
  r = None /\ joblist w' = joblist w.
Proof.
  intros Hoom Hnoeff. unfold ik_joblist_create, ik_refcounted_alloc, vector_init.
  destruct (bind try_alloc _ w) as [r1 w1| |] eqn:Hrun; try discriminate.
  intros H. inversion H; subst. split; [|reflexivity]. clear H.
  apply bind_inv in Hrun as (ok & w2 & _ & Hrun).
  destruct ok; cbn [negb] in Hrun; [|now inversion Hrun].
  apply bind_inv in Hrun as (ok & w3 & _ & Hrun).
  destruct ok; cbn [negb] in Hrun; [|now inversion Hrun].
  apply bind_inv in Hrun as ([] & w4 & _ & Hrun).
  apply bind_inv in Hrun as (status & w5 & Hupd & Hrun).
  apply ik_joblist_update_inv in Hupd as [[_ Hst]|Hupd].
  - assert ((status =? IK_OK) = false) as Hne.
    { apply Z.eqb_neq. unfold IK_OK in *. destruct Hst as [->|[->| ->]]; auto; lia. }
    rewrite Hne in Hrun. now inversion Hrun.
  - destruct Hupd as (effs & marked & u1 & u2 & u3 & u4 & cur' & Hfind & Hne & Hmark & Ha).
    rewrite (partition_after_marking_faults _ _ _ _ _ _ _ _ _ Hfind Hne Hmark) in Ha.
    discriminate.
Qed.

(** X8.  Provided the two error codes differ from [IK_OK],
    [ik_joblist_create] never hands out a job list: whenever it returns, it
    returns NULL, and the caller's state is as before but for the memory
    requests answered. *)
Theorem ik_joblist_create_returns_null
    (IK_ERR_OUT_OF_MEMORY IK_ERR_NO_EFFECTORS_FOUND : ikret)
    (fuel : nat) (tree : node_ptr) (w : world) (r : option ik_joblist) (w' : world) :
  IK_ERR_OUT_OF_MEMORY <> IK_OK ->
  IK_ERR_NO_EFFECTORS_FOUND <> IK_OK ->
  ik_joblist_create IK_ERR_OUT_OF_MEMORY IK_ERR_NO_EFFECTORS_FOUND fuel tree w
    = Ret r w' ->
  r = None /\ joblist w' = joblist w.
Proof. apply ik_joblist_create_inv. Qed.

Lemma ik_joblist_create_returns_null_witness :
  (None : option ik_joblist) = None
  /\ joblist (World (Joblist [old_job]) []) = joblist (World (Joblist [old_job]) [true; true; true; true; true; false]).
Proof.
  apply (ik_joblist_create_returns_null (-2) (-3) 5 (Ptr fork1 [])
           (World (Joblist [old_job]) [true; true; true; true; true; false])
           None (World (Joblist [old_job]) []));
    [discriminate|discriminate|].
  vm_compute. reflexivity.
Defined.

(** X9.  On a tree without effectors, and provided the two error codes
    differ from [IK_OK], [ik_joblist_create] returns, with NULL, for every
    allocator and every number of passes. *)
Theorem ik_joblist_create_no_effectors
    (IK_ERR_OUT_OF_MEMORY IK_ERR_NO_EFFECTORS_FOUND : ikret)
    (fuel : nat) (tree : node_ptr) (w : world) :
  IK_ERR_OUT_OF_MEMORY <> IK_OK ->
  IK_ERR_NO_EFFECTORS_FOUND <> IK_OK ->
  no_effectors (self tree) ->
  exists w',
    ik_joblist_create IK_ERR_OUT_OF_MEMORY IK_ERR_NO_EFFECTORS_FOUND fuel tree w
      = Ret None w'
    /\ joblist w' = joblist w.
Proof.
  intros Hoom Hnoeff Hno.
  assert (exists r w1,
             ik_joblist_create IK_ERR_OUT_OF_MEMORY IK_ERR_NO_EFFECTORS_FOUND
               fuel tree w = Ret r w1) as (r & w1 & Hrun).
  { unfold ik_joblist_create, ik_refcounted_alloc, vector_init.
    destruct (try_alloc_returns w) as (ok1 & u1 & E1).
    rewrite (bind_ret _ _ _ _ _ E1).
    destruct ok1; cbn [negb]; [|now eexists _, _].
    destruct (try_alloc_returns u1) as (ok2 & u2 & E2).
    rewrite (bind_ret _ _ _ _ _ E2).
    destruct ok2; cbn [negb]; [|now eexists _, _].
    unfold bind at 1, set_joblist. unfold bind at 1.
    rewrite update_without_effectors_eq by exact Hno.
    destruct (negb _); now eexists _, _. }
  rewrite Hrun.
  destruct (ik_joblist_create_inv _ _ _ _ _ _ _ Hoom Hnoeff Hrun) as [-> Hj].
  now exists w1.
Qed.

Lemma ik_joblist_create_no_effectors_witness :
  exists w',
    ik_joblist_create (-2) (-3) 3 (Ptr (Node 1 None (Some 7) [Node 2 None None []]) [])
      (World (Joblist [old_job]) [true; true; false]) = Ret None w'
    /\ joblist w' = joblist (World (Joblist [old_job]) [true; true; false]).
Proof.
  apply (ik_joblist_create_no_effectors (-2) (-3) 3
           (Ptr (Node 1 None (Some 7) [Node 2 None None []]) [])
           (World (Joblist [old_job]) [true; true; false]));
    [discriminate|discriminate|repeat constructor].
Defined.

(** ** The shape of the jobs *)

Lemma leaves_pushed_refl marked place cur : leaves_pushed marked place cur cur.
Proof.
  destruct cur as [st|]; [|exact I]. split; [reflexivity|].
  exists []. rewrite app_nil_r. split; [reflexivity|constructor].
Qed.

Lemma leaves_pushed_trans marked (P : node_ptr -> Prop) c1 c2 c3 :
  leaves_pushed marked P c1 c2 -> leaves_pushed marked P c2 c3 ->
  leaves_pushed marked P c1 c3.
Proof.
  destruct c1 as [s1|], c2 as [s2|], c3 as [s3|]; cbn; try tauto.
  intros (Hr1 & a1 & Hl1 & Ha1) (Hr2 & a2 & Hl2 & Ha2).
  split; [congruence|]. exists (a1 ++ a2).
  split; [now rewrite Hl2, Hl1, app_assoc|]. apply Forall_app. auto.
Qed.

Lemma leaves_pushed_weaken marked (P Q : node_ptr -> Prop) c1 c2 :
  (forall p, P p -> Q p) -> leaves_pushed marked P c1 c2 -> leaves_pushed marked Q c1 c2.
Proof.
  intros HPQ. destruct c1 as [s1|], c2 as [s2|]; cbn; try tauto.
  intros (Hr & a & Hl & Ha). split; [exact Hr|]. exists a. split; [exact Hl|].
  eapply Forall_impl; [exact Ha|]. intros l [H1 H2]. auto.
Qed.

Lemma jobs_pushed_refl marked w w' :
  joblist w' = joblist w -> jobs_pushed marked w w'.
Proof.
  intros H. exists []. rewrite H, app_nil_r. split; [reflexivity|constructor].
Qed.

Lemma jobs_pushed_trans marked w1 w2 w3 :
  jobs_pushed marked w1 w2 -> jobs_pushed marked w2 w3 -> jobs_pushed marked w1 w3.
Proof.
  intros (n1 & H1 & F1) (n2 & H2 & F2). exists (n1 ++ n2).
  split; [now rewrite H2, H1, app_assoc|]. apply Forall_app. auto.
Qed.

Lemma children_loop_shape marked up node cs :
  Forall (fun c => forall up cur w rc cur' w',
              alloc_solvers marked up c cur w = Ret (rc, cur') w' ->
              leaves_pushed marked (under up c) cur cur'
              /\ jobs_pushed marked w w') cs ->
  forall cur w done cur' w',
    NODE_FOR_EACH (fun child cur => alloc_solvers marked (node :: up) child cur)
                  cs cur w = Ret (done, cur') w' ->
    leaves_pushed marked (fun p => exists c, under (node :: up) c p) cur cur'
    /\ jobs_pushed marked w w'.
Proof.
  intros IH cur w done cur' w' Hrun.
  pose (I := fun (_ : list ik_node) (c1 : option ik_subtree) (w1 : world) =>
               leaves_pushed marked (fun p => exists c, under (node :: up) c p) cur c1
               /\ jobs_pushed marked w w1).
  destruct (NODE_FOR_EACH_inv
              (fun child cur => alloc_solvers marked (node :: up) child cur) I cs)
    with (s := cur) (w := w) (done := done) (s' := cur') (w' := w')
    as (pre & post & _ & H & _);
    [ | split; [apply leaves_pushed_refl|now apply jobs_pushed_refl] | exact Hrun
      | exact H ].
  intros pre c post s w1 rc s1 w2 Hcs [Hl Hj] Hbody.
  rewrite Forall_forall in IH.
  assert (c ∈ cs) as Hc
    by (rewrite Hcs; apply elem_of_app; right; apply list_elem_of_here).
  destruct (IH c Hc _ _ _ _ _ _ Hbody) as [Hl1 Hj1].
  split; [|now apply jobs_pushed_trans with w1].
  apply leaves_pushed_trans with s; [exact Hl|].
  eapply leaves_pushed_weaken; [|exact Hl1]. intros p Hp. now exists c.
Qed.

Lemma below_child_proper up node p :
  (exists c, under (node :: up) c p) -> proper_descendant p (Ptr node up).
Proof.
  intros (c & l & Hl). exists (l ++ [c]). split.
  - intros H. now apply app_eq_nil in H as [_ H].
  - rewrite Hl, <- app_assoc. reflexivity.
Qed.

Lemma recurse_with_new_subtree_body_shape marked up node
    (for_children : option ik_subtree -> M (bool * option ik_subtree)) w rc w' :
  (marked !! guid node = Some MARK_BEGIN
   \/ marked !! guid node = Some MARK_BEGIN_AND_END) ->
  (forall cur w done cur' w',
      for_children cur w = Ret (done, cur') w' ->
      leaves_pushed marked (fun p => exists c, under (node :: up) c p) cur cur'
      /\ jobs_pushed marked w w') ->
  recurse_with_new_subtree_body for_children (Ptr node up) w = Ret rc w' ->
  jobs_pushed marked w w'.
Proof.
  intros Hmark Hloop Hrun. unfold recurse_with_new_subtree_body in Hrun.
  apply bind_inv in Hrun as (ok & w1 & Hinit & Hrun).
  apply try_alloc_joblist in Hinit.
  destruct ok; cbn [negb] in Hrun;
    [|inversion Hrun; subst; now apply jobs_pushed_refl].
  apply bind_inv in Hrun as ([done cur] & w2 & Hchildren & Hrun).
  apply Hloop in Hchildren as [Hleaves Hjobs].
  assert (jobs_pushed marked w w2) as Hjobs2
    by (apply jobs_pushed_trans with w1; [now apply jobs_pushed_refl|exact Hjobs]).
  destruct done; cbn [negb] in Hrun; [|inversion Hrun; subst; exact Hjobs2].
  destruct cur as [st|]; [|discriminate].
  unfold leaves_pushed in Hleaves. cbn [root leaves app] in Hleaves.
  destruct Hleaves as (Hroot & added & Hadded & Hall).
  apply bind_inv in Hrun as (solver & w3 & Hsolver & Hrun).
  apply new_solver_inv in Hsolver as [Hj3 Hsolver].
  destruct Hsolver as [->|(a & -> & Halg)].
  { inversion Hrun; subst.
    apply jobs_pushed_trans with w2; [exact Hjobs2|now apply jobs_pushed_refl]. }
  apply bind_inv in Hrun as (j & w4 & Hget & Hrun).
  inversion Hget; subst j w4.
  apply bind_inv in Hrun as (v & w4 & Hpush & Hrun).
  apply vector_push_inv in Hpush as [Hj4 Hpush].
  destruct Hpush as [->| ->].
  { inversion Hrun; subst.
    apply jobs_pushed_trans with w2; [exact Hjobs2|].
    apply jobs_pushed_refl. congruence. }
  inversion Hrun; subst.
  apply jobs_pushed_trans with w2; [exact Hjobs2|].
  exists [Solver st a]. cbn [joblist solvers]. split; [now rewrite Hj3|].
  constructor; [|constructor]. unfold job_shape. cbn [solver_subtree solver_algorithm].
  rewrite Hroot. cbn [self]. split; [exact Hmark|]. split; [|now rewrite <- Hroot].
  eapply Forall_impl; [exact Hall|].
  intros l [Hl He]. split; [now apply below_child_proper|exact He].
Qed.

Lemma alloc_solvers_shape marked node :
  forall up cur w rc cur' w',
    alloc_solvers marked up node cur w = Ret (rc, cur') w' ->
    leaves_pushed marked (under up node) cur cur' /\ jobs_pushed marked w w'.
Proof.
  induction node as [g e a cs IH] using ik_node_rect_nested.
  intros up cur w rc cur' w' Hrun.
  pose proof (children_loop_shape marked up (Node g e a cs) cs IH) as Hloop.
  clear IH.
  assert (forall cur w rc cur' w',
             (let* '(done, cur') :=
                NODE_FOR_EACH
                  (fun child cur => alloc_solvers marked (Node g e a cs :: up) child cur)
                  cs cur in
              ret (if done then 0 else -1, cur')) w = Ret (rc, cur') w' ->
             leaves_pushed marked (under up (Node g e a cs)) cur cur'
             /\ jobs_pushed marked w w') as Hsection.
  { intros c0 w0 rc0 c1 w1 H.
    apply bind_inv in H as ([done c2] & w2 & Hchildren & H).
    inversion H; subst. apply Hloop in Hchildren as [Hl Hj].
    split; [|exact Hj]. eapply leaves_pushed_weaken; [|exact Hl].
    intros p [c Hu]. now apply under_child with c. }
  assert ((marked !! g = Some MARK_BEGIN \/ marked !! g = Some MARK_BEGIN_AND_END) ->
          forall cur w rc cur' w',
             (let* rc :=
                recurse_with_new_subtree_body
                  (NODE_FOR_EACH
                     (fun child cur =>
                        alloc_solvers marked (Node g e a cs :: up) child cur) cs)
                  (Ptr (Node g e a cs) up) in
              ret (rc, cur)) w = Ret (rc, cur') w' ->
             leaves_pushed marked (under up (Node g e a cs)) cur cur'
             /\ jobs_pushed marked w w') as Hbegin.
  { intros Hmark c0 w0 rc0 c1 w1 H.
    apply bind_inv in H as (rc1 & w2 & Hrec & H). inversion H; subst.
    apply (recurse_with_new_subtree_body_shape marked) in Hrec;
      [|exact Hmark|exact Hloop].
    split; [apply leaves_pushed_refl|exact Hrec]. }
  assert (marked_end marked (Ptr (Node g e a cs) up) ->
          forall w r w',
             (let* _ := assert (bool_decide (cur <> None)) in
              match cur with
              | None => raise NullDereference
              | Some st =>
                  let* v := vector_push (leaves st) (Ptr (Node g e a cs) up) in
                  ret (match v with
                       | Some v' => Some (Some (Subtree (root st) v'))
                       | None => None
                       end)
              end) w = Ret r w' ->
             joblist w' = joblist w
             /\ match r with
                | Some cur1 => leaves_pushed marked (under up (Node g e a cs)) cur cur1
                | None => True
                end)
    as Hpush.
  { intros Hend w0 r w1 H. destruct cur as [st|]; [|discriminate].
    apply bind_inv in H as ([] & w2 & Hassert & H). inversion Hassert; subst w2.
    apply bind_inv in H as (v & w2 & Hv & H). inversion H; subst.
    apply vector_push_inv in Hv as [Hj [->| ->]]; split; auto.
    split; [reflexivity|]. eexists. split; [reflexivity|].
    constructor; [|constructor]. split; [apply under_self|exact Hend]. }
  cbn [alloc_solvers] in Hrun. unfold btree_find in Hrun.
  destruct (marked !! g) as [[]|] eqn:Hg.
  - now apply Hsection in Hrun.
  - now apply (Hbegin (or_introl eq_refl)) in Hrun.
  - apply bind_inv in Hrun as (r & w1 & Hp & Hrun).
    apply (Hpush (or_introl Hg)) in Hp as [Hj Hr]. destruct r as [cur1|].
    + apply Hsection in Hrun as [Hl Hjobs].
      split; [now apply leaves_pushed_trans with cur1|].
      apply jobs_pushed_trans with w1; [now apply jobs_pushed_refl|exact Hjobs].
    + inversion Hrun; subst.
      split; [apply leaves_pushed_refl|now apply jobs_pushed_refl].
  - apply bind_inv in Hrun as (r & w1 & Hp & Hrun).
    apply (Hpush (or_intror Hg)) in Hp as [Hj Hr]. destruct r as [cur1|].
    + apply (Hbegin (or_intror eq_refl)) in Hrun as [Hl Hjobs].
      split; [now apply leaves_pushed_trans with cur1|].
      apply jobs_pushed_trans with w1; [now apply jobs_pushed_refl|exact Hjobs].
    + inversion Hrun; subst.
      split; [apply leaves_pushed_refl|now apply jobs_pushed_refl].
  - inversion Hrun; subst.
    split; [apply leaves_pushed_refl|now apply jobs_pushed_refl].
Qed.

(** X10.  Whatever [alloc_solvers] returns, the jobs in the list before the
    call are still there, in order, followed by the jobs it appended; each of
    these has a root marked BEGIN or BEGIN_AND_END, leaves that lie strictly
    below that root and are marked END or BEGIN_AND_END, and the first
    algorithm found from the root upward among the nodes that have a parent.
    The subtree [current_subtree] points to keeps its root and has gained
    only leaves at or below the node of the call, marked END or
    BEGIN_AND_END. *)
Theorem alloc_solvers_jobs (marked : btree_t) (up : list ik_node) (node : ik_node)
    (cur : option ik_subtree) (w : world) (rc : int)
    (cur' : option ik_subtree) (w' : world) :
  alloc_solvers marked up node cur w = Ret (rc, cur') w' ->
  (exists new,
      solvers (joblist w') = solvers (joblist w) ++ new
      /\ Forall (job_shape marked) new)
  /\ leaves_pushed marked (under up node) cur cur'.
Proof.
  intros H. apply alloc_solvers_shape in H as [Hl Hj]. split; [exact Hj|exact Hl].
Qed.

Lemma alloc_solvers_jobs_witness :
  exists w',
    alloc_solvers lineage_marks [] lineage1 None (plenty (Joblist [old_job]))
      = Ret (0, None) w'
    /\ (exists new,
          solvers (joblist w') = solvers (joblist (plenty (Joblist [old_job]))) ++ new
          /\ Forall (job_shape lineage_marks) new)
    /\ leaves_pushed lineage_marks (under [] lineage1) None None.
Proof.
  eexists. split; [vm_compute; reflexivity|].
  apply (alloc_solvers_jobs lineage_marks [] lineage1 None
           (plenty (Joblist [old_job])) 0 None).
  vm_compute. reflexivity.
Defined.

(** ** When the partitioner succeeds *)







(** ** What the partitioner never does when it is handed a subtree *)

Lemma children_loop_returns marked up node cs :
  Forall (fun c => forall up st w,
              exists rc st' w',
                alloc_solvers marked up c (Some st) w = Ret (rc, Some st') w') cs ->
  forall st w,
    exists done st' w',
      NODE_FOR_EACH (fun child cur => alloc_solvers marked (node :: up) child cur)
                    cs (Some st) w
        = Ret (done, Some st') w'.
Proof.
  induction 1 as [|c cs Hc _ IH]; intros st w.
  - now exists true, st, w.
  - cbn [NODE_FOR_EACH]. destruct (Hc (node :: up) st w) as (rc & st1 & w1 & Hrun).
    rewrite (bind_ret _ _ _ _ _ Hrun). cbv beta iota.
    destruct (rc =? 0); [apply IH|now exists false, st1, w1].
Qed.

Lemma alloc_solvers_returns_some marked node :
  forall up st w,
    exists rc st' w', alloc_solvers marked up node (Some st) w = Ret (rc, Some st') w'.
Proof.
  induction node as [g e a cs IH] using ik_node_rect_nested.
  intros up st w.
  pose proof (children_loop_returns marked up (Node g e a cs) cs IH) as Hloop.
  assert (forall st w, exists rc st' w',
             (let* '(done, cur') :=
                NODE_FOR_EACH
                  (fun child cur => alloc_solvers marked (Node g e a cs :: up) child cur)
                  cs (Some st) in
              ret (if done then 0 else -1, cur')) w
             = Ret (rc, Some st') w') as Hsection.
  { intros st0 w0. destruct (Hloop st0 w0) as (done & st1 & w1 & Hrun).
    rewrite (bind_ret _ _ _ _ _ Hrun). now eexists _, st1, w1. }
  assert (forall (st : ik_subtree) w, exists rc w',
             (let* rc :=
                recurse_with_new_subtree_body
                  (NODE_FOR_EACH
                     (fun child cur =>
                        alloc_solvers marked (Node g e a cs :: up) child cur) cs)
                  (Ptr (Node g e a cs) up) in
              ret (rc, Some st)) w
             = Ret (rc, Some st) w') as Hbegin.
  { intros st0 w0. unfold recurse_with_new_subtree_body, ik_subtree_init.
    unfold bind at 1.
    destruct (try_alloc_returns w0) as (ok & w1 & Halloc).
    rewrite (bind_ret _ _ _ _ _ Halloc).
    destruct ok; cbn [negb]; [|now eexists _, _].
    destruct (Hloop (Subtree (Ptr (Node g e a cs) up) []) w1)
      as (done & st1 & w2 & Hrun).
    rewrite (bind_ret _ _ _ _ _ Hrun). cbv beta iota.
    destruct done; cbn [negb]; [|now eexists _, _].
    unfold new_solver, ik_solver_create.
    destruct (find_algorithm _ _) as [alg|]; [|now eexists _, _].
    destruct (try_alloc_returns w2) as (ok2 & w3 & Halloc2).
    unfold bind at 1. unfold bind at 1. rewrite Halloc2. cbv beta iota.
    destruct ok2; [|now eexists _, _].
    cbv beta iota delta [bind ret get_joblist set_joblist vector_push try_alloc].
    destruct (allocator w3) as [|[] al]; now eexists _, _. }
  assert (forall (st : ik_subtree) w, exists r w',
             (let* _ := assert (bool_decide (Some st <> None)) in
              let* v := vector_push (leaves st) (Ptr (Node g e a cs) up) in
              ret (match v with
                   | Some v' => Some (Some (Subtree (root st) v'))
                   | None => None
                   end)) w = Ret r w'
             /\ (r = None \/ exists st1, r = Some (Some st1))) as Hpush.
  { intros st0 w0. rewrite bool_decide_eq_true_2 by discriminate.
    unfold bind at 1. cbn [assert ret]. unfold vector_push.
    destruct (try_alloc_returns w0) as (ok & w1 & Halloc).
    unfold bind at 1. unfold bind at 1. rewrite Halloc. cbv beta iota.
    destruct ok; eexists _, _; (split; [reflexivity|]); eauto. }
  cbn [alloc_solvers]. unfold btree_find.
  destruct (marked !! g) as [[]|].
  - apply Hsection.
  - destruct (Hbegin st w) as (rc & w' & H). now exists rc, st, w'.
  - destruct (Hpush st w) as (r & w1 & Hp & Hr).
    rewrite (bind_ret _ _ _ _ _ Hp).
    destruct Hr as [->|[st1 ->]]; [now eexists _, _, _|apply Hsection].
  - destruct (Hpush st w) as (r & w1 & Hp & Hr).
    rewrite (bind_ret _ _ _ _ _ Hp).
    destruct Hr as [->|[st1 ->]]; [now eexists _, _, _|].
    destruct (Hbegin st1 w1) as (rc & w' & H). now exists rc, st1, w'.
  - now exists 0, st, w.
Qed.

(** X12.  Entered with a subtree ([current_subtree] is not NULL), the
    partitioner returns, with 0 or -1, whatever the marks, the tree and the
    allocator: no assertion fails on the way and the subtree pointer handed
    down to the children is never NULL. *)
Theorem alloc_solvers_returns (marked : btree_t) (up : list ik_node)
    (node : ik_node) (st : ik_subtree) (w : world) :
  exists rc st' w',
    alloc_solvers marked up node (Some st) w = Ret (rc, Some st') w'
    /\ (rc = 0 \/ rc = -1).
Proof.
  destruct (alloc_solvers_returns_some marked node up st w) as (rc & st' & w' & H).
  exists rc, st', w'. split; [exact H|].
  now apply alloc_solvers_post in H as (Hrc & _).
Qed.

(** X13.  Started on a node without parent, the part of the rebuild that
    follows marking returns [IK_OK] only when that node is unmarked or marked
    SECTION: marked BEGIN it gets no algorithm (the walk of [new_solver]
    stops before the node without parent) and -1 is returned; marked END or
    BEGIN_AND_END the assertion fails. *)
Theorem replace_solvers_ok_root (tree : node_ptr) (marked : btree_t)
    (w w' : world) :
  parent tree = None ->
  replace_solvers tree marked w = Ret IK_OK w' ->
  marked !! guid (self tree) = None
  \/ marked !! guid (self tree) = Some MARK_SECTION.
Proof.
  intros Hpar H. apply replace_solvers_inv in H as [cur' H].
  assert (ancestors tree = []) as Hup
    by (unfold parent in Hpar; destruct (ancestors tree); congruence).
  rewrite Hup in H.
  destruct (marked !! guid (self tree)) as [[]|] eqn:Hm; auto.
  - rewrite alloc_solvers_begin in H by exact Hm.
    apply bind_inv in H as (rc & w1 & Hrec & H). inversion H; subst.
    unfold recurse_with_new_subtree in Hrec. cbn [self ancestors] in Hrec.
    apply (recurse_with_new_subtree_body_post
             (NoDup (children (self tree))
              /\ Forall (fun c => NoDup (guids c)) (children (self tree))))
      in Hrec as (_ & _ & Halg).
    + destruct (Halg eq_refl) as (st & a & Ha & _). discriminate.
    + intros cur w0 done cur1 w2 Hloop.
      apply (children_loop_post marked [] (self tree) (children (self tree)))
        in Hloop; [exact Hloop|].
      apply Forall_forall. intros c _. apply alloc_solvers_post.
  - rewrite (alloc_solvers_null_leaf marked [] (self tree) MARK_END) in H;
      [discriminate|exact Hm|now left].
  - rewrite (alloc_solvers_null_leaf marked [] (self tree) MARK_BEGIN_AND_END) in H;
      [discriminate|exact Hm|now right].
Qed.

Lemma replace_solvers_ok_root_witness :
  lineage_marks !! guid (self (Ptr lineage1 [])) = None
  \/ lineage_marks !! guid (self (Ptr lineage1 [])) = Some MARK_SECTION.
Proof.
  eapply (replace_solvers_ok_root (Ptr lineage1 []) lineage_marks
            (plenty (Joblist [old_job]))); [reflexivity|].
  vm_compute. reflexivity.
Defined.
